(** * Wizard engine and remote SSH session manager of vscode-azureappservice

    A shallow embedding of
    - [WizardBase.run] and its steps (the two-phase prompt/execute wizard),
    - the [remoteSsh] class ([startRemoteSsh], [startRemoteSshInternal],
      [connectToTunnelProxy], [stopRemoteSsh]),
    with the properties of the design document proved or refuted on it. *)

From Stdlib Require Import Ascii String.
From stdpp Require Import base option list strings gmap fin_maps pretty.

Open Scope string_scope.
Open Scope list_scope.

(** ** JavaScript errors

    [class UserCancelledError extends Error {}]: a thrown value is a plain
    [Error], the distinguished cancellation, or one of the two errors that
    the language itself throws here: a [TypeError] for the call of a
    member that is [undefined], a [ReferenceError] for the evaluation of
    an identifier that no scope binds. *)
Inductive Error : Type :=
| MkError (message : string)
| UserCancelledError (message : string)
| TypeError (message : string)
| ReferenceError (message : string).

(** [err instanceof UserCancelledError] *)
Definition instanceof_UserCancelledError (err : Error) : bool :=
  match err with
  | UserCancelledError _ => true
  | MkError _ | TypeError _ | ReferenceError _ => false
  end.

#[global] Instance Error_eq_dec : EqDecision Error.
Proof. solve_decision. Defined.

(* ===================================================================== *)
(** ** The wizard *)
(* ===================================================================== *)
Module Wizard.

(** [type WizardStatus = 'Completed' | 'Faulted' | 'Cancelled'] *)
Inductive WizardStatus : Type := Completed | Faulted | Cancelled.

Section WithWorld.

(** Everything a step or a hook can touch outside the wizard object (the
    wizard context, the remote service, the output channel's text). A call
    takes the world, returns the world it leaves behind and, when it
    throws (a rejected promise for the [async] methods), the thrown value.
    The step list is not part of the world: steps are pushed by the
    constructors, before [run]. *)
Context {W : Type}.

Definition Action : Type := W -> W * option Error.

(** [class WizardStep]: [prompt] and [execute] are the two overridable
    methods (both [async () => {}] by default). *)
Record WizardStep : Type := {
  stepTitle : string;
  prompt : Action;
  execute : Action
}.

(** The default bodies [async prompt(): Promise<void> {}] and
    [async execute(): Promise<void> {}]. *)
Definition noop : Action := fun w => (w, None).

(** [interface WizardResult]; [step] is [undefined] ([None]) when the wizard
    has no step, [error] is [null] ([None]) on completion. *)
Record WizardResult : Type := {
  status : WizardStatus;
  step : option WizardStep;
  error : option Error
}.

(** [class WizardBase]: the private fields and the two protected hooks,
    which subclasses override. *)
Record WizardBase : Type := {
  _steps : list WizardStep;
  _result : option WizardResult;
  beforeExecute : WizardStep -> nat -> Action;
  onExecuteError : WizardStep -> nat -> Error -> Action
}.

(** [get steps(): WizardStep[] { return this._steps; }] *)
Definition steps (this : WizardBase) : list WizardStep := _steps this.

(** A wizard with the hooks of the base class:
    [protected beforeExecute(step, stepIndex) {}] and
    [protected onExecuteError(step, stepIndex, error) {}]. *)
Definition base_wizard (l : list WizardStep) : WizardBase :=
  {| _steps := l;
     _result := None;
     beforeExecute := fun _ _ => noop;
     onExecuteError := fun _ _ _ => noop |}.

Definition set_result (this : WizardBase) (r : WizardResult) : WizardBase :=
  {| _steps := _steps this;
     _result := Some r;
     beforeExecute := beforeExecute this;
     onExecuteError := onExecuteError this |}.

(** What a run does, call by call, each with what it threw. *)
Inductive Event : Type :=
| EvPrompt (i : nat) (thrown : option Error)
| EvOutputShow
| EvBeforeExecute (i : nat) (thrown : option Error)
| EvExecute (i : nat) (thrown : option Error)
| EvOnExecuteError (i : nat) (err : Error) (thrown : option Error).

(** The first loop of [run], from index [i] on ([rest] is [steps.slice(i)]):
<<
    for (var i = 0; i < this.steps.length; i++) {
        const step = this.steps[i];
        try { await this.steps[i].prompt(); }
        catch (err) {
            if (err instanceof UserCancelledError) {
                return { status: 'Cancelled', step: step, error: err };
            }
            return { status: 'Faulted', step: step, error: err };
        }
    }
>>
    The result is [Some r] when the loop returned [r] from [run]. *)
Fixpoint prompt_loop (rest : list WizardStep) (i : nat) (w : W)
  : W * list Event * option WizardResult :=
  match rest with
  | [] => (w, [], None)
  | step :: rest' =>
      let '(w1, thrown) := prompt step w in
      match thrown with
      | Some err =>
          if instanceof_UserCancelledError err
          then (w1, [EvPrompt i thrown],
                Some {| status := Cancelled; step := Some step; error := Some err |})
          else (w1, [EvPrompt i thrown],
                Some {| status := Faulted; step := Some step; error := Some err |})
      | None =>
          let '(w2, evs, r) := prompt_loop rest' (S i) w1 in
          (w2, EvPrompt i None :: evs, r)
      end
  end.

(** The body of the [try] of the second loop:
    [this.beforeExecute(step, i); await this.steps[i].execute();] *)
Definition try_execute (this : WizardBase) (step : WizardStep) (i : nat) (w : W)
  : W * list Event * option Error :=
  let '(w1, thrown1) := beforeExecute this step i w in
  match thrown1 with
  | Some err => (w1, [EvBeforeExecute i thrown1], Some err)
  | None =>
      let '(w2, thrown2) := execute step w1 in
      (w2, [EvBeforeExecute i None; EvExecute i thrown2], thrown2)
  end.

(** How the second loop leaves [run]: by a value thrown out of the [catch]
    block, or by [return this._result] after the assignment. *)
Inductive Exit : Type :=
| Throws (err : Error)
| Returns (r : WizardResult).

(** The [catch (err)] block of the second loop. *)
Definition catch_execute (this : WizardBase) (step : WizardStep) (i : nat)
    (err : Error) (w : W) : W * list Event * Exit :=
  let '(w1, thrown) := onExecuteError this step i err w in
  match thrown with
  | Some err' => (w1, [EvOnExecuteError i err thrown], Throws err')
  | None =>
      if instanceof_UserCancelledError err
      then (w1, [EvOnExecuteError i err None],
            Returns {| status := Cancelled; step := Some step; error := Some err |})
      else (w1, [EvOnExecuteError i err None],
            Returns {| status := Faulted; step := Some step; error := Some err |})
  end.

(** The second loop, from index [i] on; [None] when it ran to its end. *)
Fixpoint execute_loop (this : WizardBase) (rest : list WizardStep) (i : nat) (w : W)
  : W * list Event * option Exit :=
  match rest with
  | [] => (w, [], None)
  | step :: rest' =>
      let '(w1, evs1, thrown) := try_execute this step i w in
      match thrown with
      | Some err =>
          let '(w2, evs2, x) := catch_execute this step i err w1 in
          (w2, evs1 ++ evs2, Some x)
      | None =>
          let '(w2, evs2, x) := execute_loop this rest' (S i) w1 in
          (w2, evs1 ++ evs2, x)
      end
  end.

(** What one call of [run] leaves behind. [returned] is [inl err] when the
    promise of [run] is rejected with [err]. *)
Record RunOutcome : Type := {
  final_world : W;
  final_wizard : WizardBase;
  events : list Event;
  returned : Error + WizardResult
}.

(** [async run(): Promise<WizardResult>] *)
Definition run (this : WizardBase) (w : W) : RunOutcome :=
  let '(w1, evs1, r1) := prompt_loop (steps this) 0 w in
  match r1 with
  | Some r =>
      (* returned from inside the first loop: [_result] is not assigned *)
      {| final_world := w1; final_wizard := this; events := evs1; returned := inr r |}
  | None =>
      (* this.output.show(true); *)
      let '(w2, evs2, x) := execute_loop this (steps this) 0 w1 in
      match x with
      | Some (Throws err) =>
          {| final_world := w2; final_wizard := this;
             events := evs1 ++ EvOutputShow :: evs2; returned := inl err |}
      | Some (Returns r) =>
          {| final_world := w2; final_wizard := set_result this r;
             events := evs1 ++ EvOutputShow :: evs2; returned := inr r |}
      | None =>
          (* steps[steps.length - 1] is steps[-1], undefined, on an empty list;
             so is the lookup at the truncated 0 - 1 = 0 *)
          let r := {| status := Completed;
                      step := steps this !! (length (steps this) - 1);
                      error := None |} in
          {| final_world := w2; final_wizard := set_result this r;
             events := evs1 ++ EvOutputShow :: evs2; returned := inr r |}
      end
  end.

(** [findStep(predicate, errorMessage)]: [Array.prototype.find], then the
    truthiness test (a step object is always truthy). *)
Definition findStep (this : WizardBase) (predicate : WizardStep -> bool)
    (errorMessage : string) : Error + WizardStep :=
  match List.find predicate (steps this) with
  | None => inl (MkError errorMessage)
  | Some s => inr s
  end.

(** *** Reading a run *)

(** The error that a call into a step, or the hook before it, raised. What
    [onExecuteError] throws is not raised by the steps: it leaves the
    [catch] block. *)
Definition raised (ev : Event) : option Error :=
  match ev with
  | EvPrompt _ thrown => thrown
  | EvBeforeExecute _ thrown => thrown
  | EvExecute _ thrown => thrown
  | EvOutputShow => None
  | EvOnExecuteError _ _ _ => None
  end.

(** The step an event is about. *)
Definition stepIndexOf (ev : Event) : option nat :=
  match ev with
  | EvPrompt i _ => Some i
  | EvBeforeExecute i _ => Some i
  | EvExecute i _ => Some i
  | EvOnExecuteError i _ _ => Some i
  | EvOutputShow => None
  end.




(** [k] prompts from step [i] on, none of which threw. *)
Definition prompts_ok (i k : nat) : list Event :=
  (fun j => EvPrompt j None) <$> seq i k.

(** [k] steps executed from step [i] on, none of which threw. *)
Definition executes_ok (i k : nat) : list Event :=
  mjoin ((fun j => [EvBeforeExecute j None; EvExecute j None]) <$> seq i k).

(** The result for step [s] having thrown [e]. *)
Definition failure (s : WizardStep) (e : Error) : WizardResult :=
  {| status := if instanceof_UserCancelledError e then Cancelled else Faulted;
     step := Some s;
     error := Some e |}.

(** The result of a run that went through. *)
Definition completed (this : WizardBase) : WizardResult :=
  {| status := Completed; step := last (steps this); error := None |}.

(** The events of the step at which the execute phase stops: the hook
    threw [e], or the hook went through and [execute] threw [e]. *)
Definition raiseEvents (i : nat) (e : Error) (inHook : bool) : list Event :=
  if inHook then [EvBeforeExecute i (Some e)]
  else [EvBeforeExecute i None; EvExecute i (Some e)].

(** The calls behind [raiseEvents]. *)
Definition raiseActions (this : WizardBase) (i : nat) (s : WizardStep)
    (inHook : bool) : list Action :=
  if inHook then [beforeExecute this s i]
  else [beforeExecute this s i; execute s].

(** How the [catch] block ends, given what [onExecuteError] threw. *)
Definition catchExit (s : WizardStep) (e : Error) (thrown : option Error) : Exit :=
  match thrown with
  | Some e' => Throws e'
  | None => Returns (failure s e)
  end.

(** The errors raised during a run, each with the index of its step, in
    the order they were raised. *)
Definition raisedIn (evs : list Event) : list (nat * Error) :=
  omap (fun ev =>
          match stepIndexOf ev, raised ev with
          | Some i, Some e => Some (i, e)
          | _, _ => None
          end) evs.

(** The world after the given calls, in order, whatever they threw; nothing
    is undone. *)
Definition replay (acts : list Action) (w : W) : W :=
  foldl (fun w' a => (a w').1) w acts.

(** The calls of the execute phase for the steps [l], the first of which has
    index [i]. *)
Fixpoint executeActions (this : WizardBase) (i : nat) (l : list WizardStep) : list Action :=
  match l with
  | [] => []
  | s :: l' => beforeExecute this s i :: execute s :: executeActions this (S i) l'
  end.

(** *** What the steps do, whoever calls them

    The calls that a run is to make, in its order, each with the step it
    belongs to: first every prompt; then, step by step, the hook and
    [execute]. *)
Definition promptCalls (l : list WizardStep) : list (WizardStep * Action) :=
  (fun s => (s, prompt s)) <$> l.

Fixpoint executeCalls (this : WizardBase) (i : nat) (l : list WizardStep)
  : list (WizardStep * Action) :=
  match l with
  | [] => []
  | s :: l' =>
      (s, beforeExecute this s i) :: (s, execute s) :: executeCalls this (S i) l'
  end.

Definition runCalls (this : WizardBase) : list (WizardStep * Action) :=
  promptCalls (steps this) ++ executeCalls this 0 (steps this).

(** The first of the calls that raises an error, when they are made one
    after the other from the world [w], each in the world that the calls
    before it left: its step and the error. [None] when none of them
    raises. This looks at the steps and the hook only, not at [run]. *)
Fixpoint firstRaise (calls : list (WizardStep * Action)) (w : W)
  : option (WizardStep * Error) :=
  match calls with
  | [] => None
  | (s, a) :: calls' =>
      match a w with
      | (_, Some e) => Some (s, e)
      | (w1, None) => firstRaise calls' w1
      end
  end.

(** The result that the design document asks of a run, in its words:
    [Cancelled] when a cancellation was raised, [Faulted] when another
    error was raised, with the step where it was raised and the error;
    [Completed] otherwise, with the last step and no error. *)
Definition specResult (this : WizardBase) (w : W) : WizardResult :=
  match firstRaise (runCalls this) w with
  | Some (s, e) =>
      {| status := if instanceof_UserCancelledError e then Cancelled else Faulted;
         step := Some s;
         error := Some e |}
  | None =>
      {| status := Completed; step := last (steps this); error := None |}
  end.

End WithWorld.

Arguments WizardStep : clear implicits.
Arguments WizardResult : clear implicits.
Arguments WizardBase : clear implicits.
Arguments RunOutcome : clear implicits.
Arguments Action : clear implicits.

#[global] Instance WizardEvent_eq_dec : EqDecision Event.
Proof. solve_decision. Defined.

(** *** A wizard to run: the world is the log of the calls made *)

Definition logging (tag : string) (thrown : option Error) : Action (list string) :=
  fun w => (w ++ [tag], thrown).

Definition demoStep (title : string) (p e : option Error) : WizardStep (list string) :=
  {| stepTitle := title;
     prompt := logging ("prompt " +:+ title) p;
     execute := logging ("execute " +:+ title) e |}.

(** Three steps, the second of which fails in [execute]. *)
Definition demoFaulted : WizardBase (list string) :=
  base_wizard [demoStep "1" None None;
               demoStep "2" None (Some (MkError "boom"));
               demoStep "3" None None].

(** Three steps, the second of which is cancelled in [prompt]. *)
Definition demoCancelled : WizardBase (list string) :=
  base_wizard [demoStep "1" None None;
               demoStep "2" (Some (UserCancelledError "")) None;
               demoStep "3" None None].

(** Three steps that all go through. *)
Definition demoCompleted : WizardBase (list string) :=
  base_wizard [demoStep "1" None None;
               demoStep "2" None None;
               demoStep "3" None None].

End Wizard.

(* ===================================================================== *)
(** ** The remote SSH session manager *)
(* ===================================================================== *)
Module RemoteSsh.

(** The double quote, for the messages that quote a name. *)
Definition quote : string := String "034"%char EmptyString.

(** *** Collaborators' data *)

(** [SiteClient]: the two members the class reads. *)
Record SiteClient : Type := {
  fullName : string;
  isLinux : bool
}.

(** [SiteTreeItem]: [node.root.client]. *)
Record SiteTreeItem : Type := {
  client : SiteClient
}.

(** [SiteConfigResource]: the member the class reads. *)
Record SiteConfigResource : Type := {
  remoteDebuggingEnabled : bool
}.

(** [User]: the publish credential, passed on to the tunnel. *)
Record User : Type := {
  publishingUserName : string;
  publishingPassword : string
}.

(** [new TunnelProxy(localHostPortNumber, sshPortNumber, siteClient, publishCredential)] *)
Record TunnelProxy : Type := {
  tp_localPort : N;
  tp_remotePort : N;
  tp_client : SiteClient;
  tp_credential : User
}.

(** [vscode.Terminal]: its name and the process identifier that the closure
    notification is correlated with. *)
Record Terminal : Type := {
  name : string;
  processId : nat
}.

#[global] Instance SiteClient_eq_dec : EqDecision SiteClient.
Proof. solve_decision. Defined.
#[global] Instance User_eq_dec : EqDecision User.
Proof. solve_decision. Defined.
#[global] Instance TunnelProxy_eq_dec : EqDecision TunnelProxy.
Proof. solve_decision. Defined.
#[global] Instance Terminal_eq_dec : EqDecision Terminal.
Proof. solve_decision. Defined.

(** The closure passed to [vscode.window.onDidCloseTerminal] in
    [connectToTunnelProxy], as the variables it captures. *)
Record CloseListener : Type := {
  l_terminal : Terminal;
  l_tunnelProxy : option TunnelProxy;
  l_node : SiteTreeItem;
  l_oldSetting : bool;
  l_siteConfig : SiteConfigResource
}.

(** What the class does to its collaborators, call by call.
    [EvCheckIsLinux] records the test of [siteClient.isLinux], which calls
    nobody, so that its place in the sequence can be stated;
    [EvSetRemoteDebug] is the call of [remoteDebug.setRemoteDebug] and
    [EvUpdateConfiguration] the update of the site that it may make. *)
Inductive Event : Type :=
| EvShowTreeItemPicker
| EvSessionsSet (key : string) (value : bool)
| EvGetSiteConfig (site : string)
| EvGetPort
| EvCheckIsLinux (site : string)
| EvReportMessage (message : string)
| EvSetRemoteDebug (site : string) (enabled : bool)
| EvUpdateConfiguration (site : string) (enabled : bool)
| EvGetWebAppPublishCredential (site : string)
| EvNewTunnelProxy (localPort remotePort : N)
| EvStartProxy (localPort : N)
| EvCreateTerminal (terminalName : string)
| EvSendText (pid : nat) (text : string)
| EvDelay (ms : N)
| EvShow (pid : nat)
| EvSubscribe (pid : nat)
| EvOnDidCloseTerminal (pid : nat)
| EvTunnelDispose (localPort : N)
| EvAppendLine (line : string)
| EvReadTerminals
| EvTerminalDispose (pid : nat).

#[global] Instance SshEvent_eq_dec : EqDecision Event.
Proof. solve_decision. Defined.

(** *** The state *)

Record State : Type := {
  (** [this.activeSshSessions]: it is [set] with [true] and [false] *)
  activeSshSessions : gmap string bool;
  (** the service's side: [remoteDebuggingEnabled] of each site's
      configuration (an absent entry reads as not enabled) *)
  siteConfigs : gmap string bool;
  (** [vscode.window.terminals] *)
  terminals : list Terminal;
  (** the tunnel proxies that were started and not disposed *)
  tunnels : list TunnelProxy;
  (** the listeners of [vscode.window.onDidCloseTerminal] *)
  closeListeners : list CloseListener;
  (** the process identifier the next terminal gets *)
  nextProcessId : nat;
  (** every call made so far, oldest first *)
  trace : list Event
}.

Definition set_activeSshSessions (f : gmap string bool -> gmap string bool) (st : State) : State :=
  {| activeSshSessions := f (activeSshSessions st); siteConfigs := siteConfigs st;
     terminals := terminals st; tunnels := tunnels st;
     closeListeners := closeListeners st; nextProcessId := nextProcessId st;
     trace := trace st |}.

Definition set_siteConfigs (f : gmap string bool -> gmap string bool) (st : State) : State :=
  {| activeSshSessions := activeSshSessions st; siteConfigs := f (siteConfigs st);
     terminals := terminals st; tunnels := tunnels st;
     closeListeners := closeListeners st; nextProcessId := nextProcessId st;
     trace := trace st |}.

Definition set_terminals (f : list Terminal -> list Terminal) (st : State) : State :=
  {| activeSshSessions := activeSshSessions st; siteConfigs := siteConfigs st;
     terminals := f (terminals st); tunnels := tunnels st;
     closeListeners := closeListeners st; nextProcessId := nextProcessId st;
     trace := trace st |}.

Definition set_tunnels (f : list TunnelProxy -> list TunnelProxy) (st : State) : State :=
  {| activeSshSessions := activeSshSessions st; siteConfigs := siteConfigs st;
     terminals := terminals st; tunnels := f (tunnels st);
     closeListeners := closeListeners st; nextProcessId := nextProcessId st;
     trace := trace st |}.

Definition set_closeListeners (f : list CloseListener -> list CloseListener) (st : State) : State :=
  {| activeSshSessions := activeSshSessions st; siteConfigs := siteConfigs st;
     terminals := terminals st; tunnels := tunnels st;
     closeListeners := f (closeListeners st); nextProcessId := nextProcessId st;
     trace := trace st |}.

Definition set_nextProcessId (f : nat -> nat) (st : State) : State :=
  {| activeSshSessions := activeSshSessions st; siteConfigs := siteConfigs st;
     terminals := terminals st; tunnels := tunnels st;
     closeListeners := closeListeners st; nextProcessId := f (nextProcessId st);
     trace := trace st |}.

Definition set_trace (f : list Event -> list Event) (st : State) : State :=
  {| activeSshSessions := activeSshSessions st; siteConfigs := siteConfigs st;
     terminals := terminals st; tunnels := tunnels st;
     closeListeners := closeListeners st; nextProcessId := nextProcessId st;
     trace := f (trace st) |}.

(** *** The behaviour of the collaborators during one operation *)

(** The calls that leave the process and can fail. The terminal API
    ([createTerminal], [sendText], [show], [dispose]) does not throw. *)
Inductive Call : Type :=
| CallShowTreeItemPicker
| CallGetSiteConfig
| CallGetPort
| CallUpdateConfiguration
| CallGetWebAppPublishCredential
| CallStartProxy
| CallTunnelDispose.

Record Env : Type := {
  (** what each call throws, if it throws *)
  throws : Call -> option Error;
  (** the node [ext.tree.showTreeItemPicker] resolves to *)
  pickedNode : SiteTreeItem;
  (** the port [portfinder.getPortPromise] resolves to *)
  freePort : N;
  (** the credential [getWebAppPublishCredential] resolves to *)
  credential : User
}.

(** *** State and exception monad

    A computation takes the state and leaves a state (what was done before a
    [throw] stays done) with either the thrown error or the value. *)
Definition M (A : Type) : Type := State -> State * (Error + A).

Definition ret {A} (a : A) : M A := fun st => (st, inr a).

Definition throw {A} (err : Error) : M A := fun st => (st, inl err).

Definition bind {A B} (m : M A) (k : A -> M B) : M B :=
  fun st =>
    match m st with
    | (st1, inl err) => (st1, inl err)
    | (st1, inr a) => k a st1
    end.

(** [try { m } catch (error) { handler error }] *)
Definition try_catch {A} (m : M A) (handler : Error -> M A) : M A :=
  fun st =>
    match m st with
    | (st1, inl err) => handler err st1
    | (st1, inr a) => (st1, inr a)
    end.

Definition gets {A} (f : State -> A) : M A := fun st => (st, inr (f st)).

Definition modify (f : State -> State) : M unit := fun st => (f st, inr tt).

Notation "x <- m ;; k" := (bind m (fun x => k))
  (at level 100, m at next level, right associativity).
Notation "m ;; k" := (bind m (fun _ => k))
  (at level 100, right associativity).

(** Record a call. *)
Definition emit (ev : Event) : M unit := modify (set_trace (fun tr => tr ++ [ev])).

(** Record a call that can fail, and fail if the collaborator does. *)
Definition call (env : Env) (c : Call) (ev : Event) : M unit :=
  emit ev ;;
  match throws env c with
  | Some err => throw err
  | None => ret tt
  end.

(** JavaScript truthiness of [map.get(key)]: [undefined] and [false] are
    falsy. *)
Definition truthy (v : option bool) : bool :=
  match v with
  | Some true => true
  | Some false => false
  | None => false
  end.


(** *** Collaborator calls *)

(** [ext.tree.showTreeItemPicker(WebAppTreeItem.contextValue)] *)
Definition showTreeItemPicker (env : Env) : M SiteTreeItem :=
  call env CallShowTreeItemPicker EvShowTreeItemPicker ;;
  ret (pickedNode env).

(** [this.activeSshSessions.set(key, value)] *)
Definition activeSshSessions_set (key : string) (value : bool) : M unit :=
  emit (EvSessionsSet key value) ;;
  modify (set_activeSshSessions (fun m => <[key := value]> m)).

(** [siteClient.getSiteConfig()] *)
Definition getSiteConfig (env : Env) (siteClient : SiteClient) : M SiteConfigResource :=
  call env CallGetSiteConfig (EvGetSiteConfig (fullName siteClient)) ;;
  cfgs <- gets siteConfigs ;;
  ret {| remoteDebuggingEnabled := default false (cfgs !! fullName siteClient) |}.

(** [portfinder.getPortPromise()] *)
Definition getPortPromise (env : Env) : M N :=
  call env CallGetPort EvGetPort ;;
  ret (freePort env).

(** [remoteDebug.reportMessage(message, progress)] *)
Definition reportMessage (message : string) : M unit :=
  emit (EvReportMessage message).

(** Modelled from the spec: [remoteDebug.setRemoteDebug], of
    [remoteDebugCommon], which the sources at hand only call. The design
    document gives the collaborator as [setRemoteDebugFlag(target, bool)],
    says of the bring-up that it disables the target's remote-debugging
    feature if enabled, and of any collaborator call that it can fail.
    So: nothing to do when the target's flag already has the value asked
    for; otherwise one update of the site configuration, which can fail,
    after which the flag has that value. The confirmation messages are
    [undefined] at both call sites (no confirmation). *)
Definition setRemoteDebug (env : Env) (isRemoteDebuggingToBeEnabled : bool)
    (siteClient : SiteClient) (siteConfig : SiteConfigResource) : M unit :=
  emit (EvSetRemoteDebug (fullName siteClient) isRemoteDebuggingToBeEnabled) ;;
  cfgs <- gets siteConfigs ;;
  if bool_decide (default false (cfgs !! fullName siteClient) = isRemoteDebuggingToBeEnabled)
  then ret tt
  else
    call env CallUpdateConfiguration
      (EvUpdateConfiguration (fullName siteClient) isRemoteDebuggingToBeEnabled) ;;
    modify (set_siteConfigs (fun m => <[fullName siteClient := isRemoteDebuggingToBeEnabled]> m)).

(** [siteClient.getWebAppPublishCredential()] *)
Definition getWebAppPublishCredential (env : Env) (siteClient : SiteClient) : M User :=
  call env CallGetWebAppPublishCredential (EvGetWebAppPublishCredential (fullName siteClient)) ;;
  ret (credential env).

(** [new TunnelProxy(localPort, remotePort, siteClient, publishCredential)] *)
Definition new_TunnelProxy (localPort remotePort : N) (siteClient : SiteClient)
    (publishCredential : User) : M TunnelProxy :=
  emit (EvNewTunnelProxy localPort remotePort) ;;
  ret {| tp_localPort := localPort; tp_remotePort := remotePort;
         tp_client := siteClient; tp_credential := publishCredential |}.

(** [tunnelProxy.startProxy()] *)
Definition startProxy (env : Env) (tunnelProxy : TunnelProxy) : M unit :=
  call env CallStartProxy (EvStartProxy (tp_localPort tunnelProxy)) ;;
  modify (set_tunnels (fun l => l ++ [tunnelProxy])).

(** [tunnelProxy.dispose()] *)
Definition tunnelProxy_dispose (env : Env) (tunnelProxy : TunnelProxy) : M unit :=
  call env CallTunnelDispose (EvTunnelDispose (tp_localPort tunnelProxy)) ;;
  modify (set_tunnels (fun l => filter (fun tp => tp <> tunnelProxy) l)).

(** [vscode.window.createTerminal(name)] *)
Definition createTerminal (terminalName : string) : M Terminal :=
  emit (EvCreateTerminal terminalName) ;;
  pid <- gets nextProcessId ;;
  let terminal := {| name := terminalName; processId := pid |} in
  modify (set_nextProcessId S) ;;
  modify (set_terminals (fun l => l ++ [terminal])) ;;
  ret terminal.

(** [terminal.sendText(text, true)] *)
Definition sendText (terminal : Terminal) (text : string) : M unit :=
  emit (EvSendText (processId terminal) text).

(** [delay(ms)] *)
Definition delay (ms : N) : M unit := emit (EvDelay ms).

(** [terminal.show()] *)
Definition show (terminal : Terminal) : M unit := emit (EvShow (processId terminal)).

(** [terminal.dispose()]: the terminal leaves [vscode.window.terminals];
    the closure notification comes later, see [fireDidCloseTerminal]. *)
Definition terminal_dispose (terminal : Terminal) : M unit :=
  emit (EvTerminalDispose (processId terminal)) ;;
  modify (set_terminals (fun l => filter (fun t => processId t <> processId terminal) l)).

(** [ext.outputChannel.appendLine(line)] *)
Definition appendLine (line : string) : M unit := emit (EvAppendLine line).


(** *** The class [remoteSsh] *)

(** [`${node.root.client.fullName} - Remote SSH`] *)
Definition sshTerminalName (node : SiteTreeItem) : string :=
  fullName (client node) +:+ " - Remote SSH".

(** The [ssh] command line, ending in [-p ${localHostPortNumber}]. *)
Definition sshCommand (localHostPortNumber : N) : string :=
  "ssh -c aes256-cbc -o StrictHostKeyChecking=no -o " +:+ quote
  +:+ "UserKnownHostsFile /dev/null" +:+ quote +:+ " -o " +:+ quote
  +:+ "LogLevel ERROR" +:+ quote +:+ " root@127.0.0.1 -p " +:+ pretty localHostPortNumber.

Definition alreadyStartedMessage (key : string) : string :=
  "Azure Remote SSH is currently starting or already started for "
  +:+ quote +:+ key +:+ quote +:+ ".".

Definition onlyLinuxMessage : string :=
  "Azure Remote SSH is only supported for Linux web apps.".

Definition disconnectedMessage (key : string) : string :=
  "Azure Remote SSH for " +:+ quote +:+ key +:+ quote +:+ " has disconnected.".

Definition notRunningMessage (key : string) : string :=
  "Azure Remote SSH is not currently running for " +:+ quote +:+ key +:+ quote +:+ ".".

Definition notFoundMessage (terminalName : string) : string :=
  "Terminal " +:+ quote +:+ terminalName +:+ quote +:+ " could not be found.".

(** The listener that [connectToTunnelProxy] registers:
<<
    async (e: vscode.Terminal) => {
        if (e.processId === terminal.processId) {
            if (tunnelProxy !== undefined) { tunnelProxy.dispose(); }
            this.activeSshSessions.set(node.root.client.fullName, false);
            ext.outputChannel.appendLine(`... has disconnected.`);
            await remoteDebug.setRemoteDebug(oldSetting, undefined, undefined, siteClient, siteConfig);
        }
    }
>>
    There is no [try] in it: the first statement that throws ends it. *)
Definition closeListener_run (env : Env) (l : CloseListener) (e : Terminal) : M unit :=
  if bool_decide (processId e = processId (l_terminal l)) then
    match l_tunnelProxy l with
    | Some tunnelProxy => tunnelProxy_dispose env tunnelProxy
    | None => ret tt
    end ;;
    activeSshSessions_set (fullName (client (l_node l))) false ;;
    appendLine (disconnectedMessage (fullName (client (l_node l)))) ;;
    setRemoteDebug env (l_oldSetting l) (client (l_node l)) (l_siteConfig l)
  else ret tt.

(** The evaluation of an identifier that no enclosing scope binds: a
    [ReferenceError], worded as Node.js, the host of the extension, words
    it. *)
Definition unbound {A : Type} (identifier : string) : M A :=
  throw (ReferenceError (identifier +:+ " is not defined")).

(** [connectToTunnelProxy(tunnelProxy)]. The method binds [tunnelProxy]
    and nothing else: [node], [localHostPortNumber], [oldSetting],
    [siteClient] and [siteConfig] are locals of [startRemoteSshInternal],
    and neither the class nor the module (its imports) binds them. Each is
    evaluated where the text has it; the first is [node], in the first
    statement, so nothing after it is reached. The listener is written
    with the values of the identifiers it reads. *)
Definition connectToTunnelProxy (tunnelProxy : TunnelProxy) : M unit :=
  node <- unbound "node" ;;
  let sshTerminalName := sshTerminalName node in
  localHostPortNumber <- unbound "localHostPortNumber" ;;
  let sshCommand := sshCommand localHostPortNumber in
  terminal <- createTerminal sshTerminalName ;;
  sendText terminal sshCommand ;;
  delay 3000 ;;
  sendText terminal "Docker!" ;;
  show terminal ;;
  emit (EvSubscribe (processId terminal)) ;;
  emit (EvOnDidCloseTerminal (processId terminal)) ;;
  oldSetting <- unbound "oldSetting" ;;
  siteConfig <- unbound "siteConfig" ;;
  modify (set_closeListeners (fun ls => ls ++
    [ {| l_terminal := terminal; l_tunnelProxy := Some tunnelProxy; l_node := node;
         l_oldSetting := oldSetting; l_siteConfig := siteConfig |} ])).

(** The message of the [TypeError] for the call of [undefined], as Node.js
    words it. *)
Definition notAFunctionMessage : string :=
  "this.connectToTunnelProxy is not a function".

(** [await this.connectToTunnelProxy(tunnelProxy)] in the callback
    [async function (this: IActionContext)] that is passed to
    [callWithTelemetryAndErrorHandling]: [this] is the action context that
    the callback is called on, not the [remoteSsh] object. The context has
    no member [connectToTunnelProxy] (the callback itself sets its
    [rethrowError]), so the call is a call of [undefined] and throws a
    [TypeError]; the method of the class is not called. *)
Definition actionContext_connectToTunnelProxy (tunnelProxy : TunnelProxy) : M unit :=
  throw (TypeError notAFunctionMessage).

(** [startRemoteSshInternal(node)]. [vscode.window.withProgress] runs its
    callback and settles as it does; [callWithTelemetryAndErrorHandling]
    with [rethrowError = true] does the same. *)
Definition startRemoteSshInternal (env : Env) (node : SiteTreeItem) : M unit :=
  let siteClient := client node in
  siteConfig <- getSiteConfig env siteClient ;;
  let oldSetting := remoteDebuggingEnabled siteConfig in
  localHostPortNumber <- getPortPromise env ;;
  let sshPortNumber := 2222%N in
  emit (EvCheckIsLinux (fullName siteClient)) ;;
  if negb (isLinux siteClient) then throw (MkError onlyLinuxMessage)
  else
    reportMessage "Checking app settings..." ;;
    setRemoteDebug env false siteClient siteConfig ;;
    reportMessage "Starting SSH..." ;;
    publishCredential <- getWebAppPublishCredential env siteClient ;;
    tunnelProxy <- new_TunnelProxy localHostPortNumber sshPortNumber siteClient publishCredential ;;
    startProxy env tunnelProxy ;;
    actionContext_connectToTunnelProxy tunnelProxy.

(** [if (!node) { node = await ext.tree.showTreeItemPicker(...); }] *)
Definition resolveNode (env : Env) (node : option SiteTreeItem) : M SiteTreeItem :=
  match node with
  | Some n => ret n
  | None => showTreeItemPicker env
  end.

(** [startRemoteSsh(node?)] *)
Definition startRemoteSsh (env : Env) (node : option SiteTreeItem) : M unit :=
  node <- resolveNode env node ;;
  sessions <- gets activeSshSessions ;;
  if truthy (sessions !! fullName (client node)) then
    throw (MkError (alreadyStartedMessage (fullName (client node))))
  else
    activeSshSessions_set (fullName (client node)) true ;;
    try_catch (startRemoteSshInternal env node)
      (fun error =>
         activeSshSessions_set (fullName (client node)) false ;;
         throw error).

(** [stopRemoteSsh(node?)]; the [for ... of] loop disposes the first
    terminal of that name and returns. *)
Definition stopRemoteSsh (env : Env) (node : option SiteTreeItem) : M unit :=
  node <- resolveNode env node ;;
  sessions <- gets activeSshSessions ;;
  if negb (truthy (sessions !! fullName (client node))) then
    throw (MkError (notRunningMessage (fullName (client node))))
  else
    emit EvReadTerminals ;;
    ts <- gets terminals ;;
    match List.find (fun terminal => String.eqb (name terminal) (sshTerminalName node)) ts with
    | Some terminal => terminal_dispose terminal
    | None => throw (MkError (notFoundMessage (sshTerminalName node)))
    end.

(** The closure notification of terminal [e], which has left
    [vscode.window.terminals]: every listener is called. A listener is an
    [async] function, so what it throws rejects a promise nobody awaits and
    reaches neither the other listeners nor the caller. The listeners are
    run here one after the other, each to its end. *)
Definition fireDidCloseTerminal (env : Env) (e : Terminal) (st : State) : State :=
  foldl (fun st' l => (closeListener_run env l e st').1)
        (set_terminals (fun ts => filter (fun t => processId t <> processId e) ts) st)
        (closeListeners st).

(** *** Reading the state *)

(** The session registry reports [key] active. *)
Definition isActive (key : string) (st : State) : bool :=
  truthy (activeSshSessions st !! key).

(** The target's remote-debugging flag on the service. *)
Definition remoteDebugOf (key : string) (st : State) : bool :=
  default false (siteConfigs st !! key).

(** The calls made between two states of one execution. *)
Definition eventsSince (st st' : State) : list Event :=
  drop (length (trace st)) (trace st').

(** The state once the tree item picker has been called. *)
Definition picked (st : State) : State :=
  set_trace (fun tr => tr ++ [EvShowTreeItemPicker]) st.

(** The state once [key] has been registered. *)
Definition registered (key : string) (st : State) : State :=
  set_activeSshSessions (fun m => <[key := true]> m)
    (set_trace (fun tr => tr ++ [EvSessionsSet key true]) st).

(** The state once the registration of [key] has been released. *)
Definition released (key : string) (st : State) : State :=
  set_activeSshSessions (fun m => <[key := false]> m)
    (set_trace (fun tr => tr ++ [EvSessionsSet key false]) st).

(** The tunnel that a bring-up opens. *)
Definition boundTunnel (env : Env) (node : SiteTreeItem) : TunnelProxy :=
  {| tp_localPort := freePort env; tp_remotePort := 2222;
     tp_client := client node; tp_credential := credential env |}.

(** The target a call is about: the node given, or the one picked. *)
Definition targetOf (env : Env) (node : option SiteTreeItem) : SiteTreeItem :=
  match node with
  | Some n => n
  | None => pickedNode env
  end.

(** The calls of [startRemoteSshInternal] and of what it calls. *)
Definition isBringUpEvent (ev : Event) : bool :=
  match ev with
  | EvGetSiteConfig _ | EvGetPort | EvCheckIsLinux _ | EvReportMessage _
  | EvSetRemoteDebug _ _ | EvUpdateConfiguration _ _
  | EvGetWebAppPublishCredential _ | EvNewTunnelProxy _ _ | EvStartProxy _
  | EvCreateTerminal _ | EvSendText _ _ | EvDelay _ | EvShow _
  | EvSubscribe _ | EvOnDidCloseTerminal _ => true
  | EvShowTreeItemPicker | EvSessionsSet _ _ | EvTunnelDispose _
  | EvAppendLine _ | EvReadTerminals | EvTerminalDispose _ => false
  end.

(** The calls of a bring-up that gets as far as it can, for the site
    [key], with the port [port] found and remote debugging enabled or not
    beforehand: the last one starts the tunnel. *)
Definition bringUpEvents (key : string) (port : N) (wasEnabled : bool) : list Event :=
  [EvGetSiteConfig key; EvGetPort; EvCheckIsLinux key;
   EvReportMessage "Checking app settings..."; EvSetRemoteDebug key false]
  ++ (if wasEnabled then [EvUpdateConfiguration key false] else [])
  ++ [EvReportMessage "Starting SSH..."; EvGetWebAppPublishCredential key;
      EvNewTunnelProxy port 2222; EvStartProxy port].

(** The actions of the bring-up that the design document names. *)
Inductive BringUpAction : Type :=
| VerifyPlatform
| SnapshotConfiguration
| ReservePort
| DisableRemoteDebugging
| FetchCredentials
| OpenTunnel
| CreateTerminal
| SendConnectCommand
| SettleDelay
| SendLoginCredential
| ShowTerminal.

#[global] Instance BringUpAction_eq_dec : EqDecision BringUpAction.
Proof. solve_decision. Defined.

(** The action a call stands for, if any. *)
Definition actionOf (ev : Event) : option BringUpAction :=
  match ev with
  | EvCheckIsLinux _ => Some VerifyPlatform
  | EvGetSiteConfig _ => Some SnapshotConfiguration
  | EvGetPort => Some ReservePort
  | EvSetRemoteDebug _ false => Some DisableRemoteDebugging
  | EvGetWebAppPublishCredential _ => Some FetchCredentials
  | EvStartProxy _ => Some OpenTunnel
  | EvCreateTerminal _ => Some CreateTerminal
  | EvSendText _ text =>
      if String.eqb text "Docker!" then Some SendLoginCredential
      else Some SendConnectCommand
  | EvDelay _ => Some SettleDelay
  | EvShow _ => Some ShowTerminal
  | _ => None
  end.

Definition bringUpActions (evs : list Event) : list BringUpAction := omap actionOf evs.

(** The order of the actions as the design document lists them (its
    section 4.3, items 2 to 7): the platform check comes first. *)
Definition specBringUpOrder : list BringUpAction :=
  [VerifyPlatform; SnapshotConfiguration; ReservePort; DisableRemoteDebugging;
   FetchCredentials; OpenTunnel; CreateTerminal; SendConnectCommand;
   SettleDelay; SendLoginCredential; ShowTerminal].

(** The order of the actions in the text of [startRemoteSshInternal] and
    [connectToTunnelProxy]: the platform check comes after the
    configuration and the port. *)
Definition codeBringUpOrder : list BringUpAction :=
  [SnapshotConfiguration; ReservePort; VerifyPlatform; DisableRemoteDebugging;
   FetchCredentials; OpenTunnel; CreateTerminal; SendConnectCommand;
   SettleDelay; SendLoginCredential; ShowTerminal].

(** The actions of [startRemoteSshInternal] itself, in its order: up to
    the opening of the tunnel. *)
Definition tunnelBringUpOrder : list BringUpAction :=
  [SnapshotConfiguration; ReservePort; VerifyPlatform; DisableRemoteDebugging;
   FetchCredentials; OpenTunnel].

(** *** A scenario: the site "app1", remote debugging enabled *)

Definition app1 : SiteTreeItem :=
  {| client := {| fullName := "app1"; isLinux := true |} |}.

(** A Windows site. *)
Definition winApp : SiteTreeItem :=
  {| client := {| fullName := "winApp"; isLinux := false |} |}.

Definition st0 : State :=
  {| activeSshSessions := ∅;
     siteConfigs := {[ "app1" := true ]};
     terminals := [];
     tunnels := [];
     closeListeners := [];
     nextProcessId := 7;
     trace := [] |}.

(** Every collaborator call goes through. *)
Definition envOk : Env :=
  {| throws := fun _ => None;
     pickedNode := app1;
     freePort := 8000;
     credential := {| publishingUserName := "$app1"; publishingPassword := "secret" |} |}.

(** The tunnel that the bring-up for "app1" opens. *)
Definition tunnel1 : TunnelProxy := boundTunnel envOk app1.

(** The state after [startRemoteSsh] for "app1". *)
Definition st1 : State := (startRemoteSsh envOk (Some app1) st0).1.

(** A terminal with the name of the session of "app1". *)
Definition terminal1 : Terminal := {| name := "app1 - Remote SSH"; processId := 7 |}.

(** The registry reporting "app1" active, as it does while a bring-up is
    under way (the map is a public member of the class), a tunnel open and
    a terminal of the session's name in the window. *)
Definition stActive : State :=
  {| activeSshSessions := {[ "app1" := true ]};
     siteConfigs := {[ "app1" := false ]};
     terminals := [terminal1];
     tunnels := [tunnel1];
     closeListeners := [];
     nextProcessId := 8;
     trace := [] |}.

(** The same with no terminal of that name. *)
Definition stDrift : State := set_terminals (fun _ => []) stActive.

End RemoteSsh.

(* ===================================================================== *)
(** ** The steps' own members *)
(* ===================================================================== *)
Module Steps.
Import Wizard.

(** [Array.prototype.findIndex]: the index of the first element that
    satisfies the predicate, [-1] when there is none. *)
Fixpoint findIndexFrom {A} (p : A -> bool) (l : list A) (i : Z) : Z :=
  match l with
  | [] => (-1)%Z
  | x :: l' => if p x then i else findIndexFrom p l' (i + 1)%Z
  end.

Definition findIndex {A} (p : A -> bool) (l : list A) : Z := findIndexFrom p l 0%Z.

Section Position.

(** The step objects as [===] sees them: by identity. *)
Context {Ref : Type} `{EqDecision Ref}.

(** [get stepIndex(): number { return this.wizard.steps.findIndex(step => step === this); }]
    with [steps] the list [this.wizard.steps]. *)
Definition stepIndex (steps : list Ref) (this : Ref) : Z :=
  findIndex (fun step => bool_decide (step = this)) steps.

(** [get stepProgressText(): string]:
    [`Step ${this.stepIndex + 1}/${this.wizard.steps.length}`] *)
Definition stepProgressText (steps : list Ref) (this : Ref) : string :=
  "Step " +:+ pretty (stepIndex steps this + 1)%Z +:+ "/"
  +:+ pretty (Z.of_nat (length steps)).

End Position.

Section Prompts.

Context {W : Type}.

(** What a call that resolves to a value leaves: the world, and the value
    or what was thrown. *)
Definition Call (A : Type) : Type := W -> W * (Error + A).

(** [async showQuickPick(items, options, token)]: the picker of
    [vscode.window] resolves to the picked item or to [undefined]; an
    item is an object, so only [undefined] is falsy. *)
Definition showQuickPick {Item : Type}
    (window_showQuickPick : list Item -> Call (option Item))
    (items : list Item) : Call Item :=
  fun w =>
    match window_showQuickPick items w with
    | (w1, inl err) => (w1, inl err)
    | (w1, inr None) => (w1, inl (UserCancelledError ""))
    | (w1, inr (Some result)) => (w1, inr result)
    end.

(** [async showInputBox(options, token)]: the input box resolves to the
    text or to [undefined]; [!result] also holds for the empty text. *)
Definition showInputBox (window_showInputBox : Call (option string)) : Call string :=
  fun w =>
    match window_showInputBox w with
    | (w1, inl err) => (w1, inl err)
    | (w1, inr None) => (w1, inl (UserCancelledError ""))
    | (w1, inr (Some result)) =>
        if String.eqb result "" then (w1, inl (UserCancelledError ""))
        else (w1, inr result)
    end.

(** A [prompt] that awaits a call and goes on with its value, as the
    prompts of the steps do with [showQuickPick] and [showInputBox]. *)
Definition awaitThen {A : Type} (c : Call A) (k : A -> Action W) : Action W :=
  fun w =>
    match c w with
    | (w1, inl err) => (w1, Some err)
    | (w1, inr a) => k a w1
    end.

End Prompts.

(** *** Wizards to run, over the log of the calls made *)

(** A step whose prompt awaits an input box that resolves to [answer]. *)
Definition inputStep (answer : option string) : WizardStep (list string) :=
  {| stepTitle := "name";
     prompt := awaitThen (showInputBox (fun w => (w ++ ["input box"], inr answer)))
                         (fun text => logging text None);
     execute := noop |}.

(** The input box of the second step resolves to the empty text. *)
Definition demoInput : WizardBase (list string) :=
  base_wizard [demoStep "1" None None; inputStep (Some "")].

(** The [beforeExecute] hook throws at the second step. *)
Definition demoHookThrows : WizardBase (list string) :=
  {| _steps := [demoStep "1" None None; demoStep "2" None None];
     _result := None;
     beforeExecute := fun _ i =>
       logging "beforeExecute" (if Nat.eqb i 1 then Some (MkError "hook") else None);
     onExecuteError := fun _ _ _ => logging "onExecuteError" None |}.

(** The second step fails in [execute], and [onExecuteError] throws. *)
Definition demoHandlerThrows : WizardBase (list string) :=
  {| _steps := [demoStep "1" None None; demoStep "2" None (Some (MkError "boom"))];
     _result := None;
     beforeExecute := fun _ _ => noop;
     onExecuteError := fun _ _ _ => logging "onExecuteError" (Some (MkError "handler")) |}.

End Steps.

(* ===================================================================== *)
(** ** The Web App creation wizard *)
(* ===================================================================== *)
Module WebAppCreator.
Import Wizard.

(** *** The output channel and the hooks *)

Section Hooks.

(** What the steps touch besides the output channel. *)
Context {X : Type}.

(** The world of this wizard: the text of its output channel, and the
    rest. *)
Record World : Type := {
  output : string;
  others : X
}.

(** The line feed that [appendLine] adds. *)
Definition newline : string := String "010"%char EmptyString.

(** [write(text) { this.output.append(text); }] *)
Definition write (text : string) : Action World :=
  fun w => ({| output := output w +:+ text; others := others w |}, None).

(** [writeline(text) { this.output.appendLine(text); }] *)
Definition writeline (text : string) : Action World :=
  fun w => ({| output := output w +:+ text +:+ newline; others := others w |}, None).

(** [error.message] *)
Definition message (err : Error) : string :=
  match err with
  | MkError m | UserCancelledError m | TypeError m | ReferenceError m => m
  end.

(** [protected beforeExecute(step, stepIndex)]:
    [if (stepIndex == 0) { this.writeline('Start creating new Web App...'); }] *)
Definition creator_beforeExecute (step : WizardStep World) (stepIndex : nat)
  : Action World :=
  if Nat.eqb stepIndex 0 then writeline "Start creating new Web App..." else noop.

(** [protected onExecuteError(step, stepIndex, error)]:
    [this.writeline(`Failed to create new Web App - ${error.message}`);] *)
Definition creator_onExecuteError (step : WizardStep World) (stepIndex : nat)
    (error : Error) : Action World :=
  writeline ("Failed to create new Web App - " +:+ message error).

(** [protected onComplete() { this.writeline('Done!'); }]; nothing in
    [WizardBase] calls it. *)
Definition creator_onComplete : Action World := writeline "Done!".

(** [class WebAppCreator extends WizardBase] with the steps [l]; its
    constructor pushes the subscription, resource group, plan and web site
    steps. *)
Definition webAppCreator (l : list (WizardStep World)) : WizardBase World :=
  {| _steps := l;
     _result := None;
     beforeExecute := creator_beforeExecute;
     onExecuteError := creator_onExecuteError |}.

End Hooks.

Arguments World : clear implicits.

(** *** Wizards to run, with nothing but the output channel *)

(** A step that writes to the output when prompted and when executed; its
    [execute] throws [thrown] after writing. *)
Definition writingStep (title : string) (thrown : option Error) : WizardStep (World unit) :=
  {| stepTitle := title;
     prompt := write ("prompt " +:+ title +:+ "; ");
     execute := fun w => ((write ("execute " +:+ title +:+ "; ") w).1, thrown) |}.

Definition emptyOutput : World unit := {| output := ""; others := tt |}.

(** Two steps that go through. *)
Definition demoCreator : WizardBase (World unit) :=
  webAppCreator [writingStep "1" None; writingStep "2" None].

(** Two steps, the second of which fails in [execute]. *)
Definition demoCreatorFails : WizardBase (World unit) :=
  webAppCreator [writingStep "1" None; writingStep "2" (Some (MkError "quota"))].

(** *** The validation of the names typed in *)

(** The code units of a text of the source. *)
Definition units (s : string) : list N :=
  (fun a => N_of_ascii a) <$> list_ascii_of_string s.

(** [a-z] under the [i] flag: the letters of both cases (a code unit
    above 127 is never folded onto one below). *)
Definition isLetter (c : N) : bool :=
  ((97 <=? c) && (c <=? 122) || (65 <=? c) && (c <=? 90))%N.

(** [0-9] *)
Definition isDigit (c : N) : bool := ((48 <=? c) && (c <=? 57))%N.

(** [[a-z0-9\-]] under the [i] flag *)
Definition isNameChar (c : N) : bool :=
  isLetter c || isDigit c || (c =? 45)%N.

(** [[a-z0-9\-_()]] under the [i] flag *)
Definition isGroupEndChar (c : N) : bool :=
  isLetter c || isDigit c || (c =? 45)%N || (c =? 95)%N || (c =? 40)%N || (c =? 41)%N.

(** [[a-z0-9.\-_()]] under the [i] flag *)
Definition isGroupChar (c : N) : bool :=
  isLetter c || isDigit c || (c =? 46)%N || (c =? 45)%N || (c =? 95)%N
  || (c =? 40)%N || (c =? 41)%N.

(** One term of a pattern: a character class with its bounds,
    [[class]{min,max}] (a bare class is [{1,1}]). *)
Record Piece : Type := {
  cls : N -> bool;
  rmin : nat;
  rmax : nat
}.

(** Whether a text matches [^ piece ... piece $]: some number of code
    units within the bounds of the first piece, all in its class, followed
    by a match of the rest; at the end of the pattern, the end of the
    text. *)
Fixpoint matchPieces (ps : list Piece) (s : list N) : bool :=
  match ps with
  | [] => match s with [] => true | _ :: _ => false end
  | p :: ps' =>
      existsb (fun k => Nat.leb k (length s) && forallb (cls p) (take k s)
                        && matchPieces ps' (drop k s))
              (seq (rmin p) (S (rmax p) - rmin p))
  end.

(** [/^[a-z0-9\-]{0,59}$/ig] *)
Definition siteNamePattern : list Piece :=
  [ {| cls := isNameChar; rmin := 0; rmax := 59 |} ].

(** [/^[a-z0-9\-]{0,39}$/ig] *)
Definition planNamePattern : list Piece :=
  [ {| cls := isNameChar; rmin := 0; rmax := 39 |} ].

(** [/^[a-z0-9.\-_()]{0,89}[a-z0-9\-_()]$/ig] *)
Definition groupNamePattern : list Piece :=
  [ {| cls := isGroupChar; rmin := 0; rmax := 89 |};
    {| cls := isGroupEndChar; rmin := 1; rmax := 1 |} ].

(** The members of the resource groups and plans that the validations
    read. *)
Record ResourceGroup : Type := {
  rg_name : list N;
  rg_location : list N
}.

Record AppServicePlan : Type := {
  plan_resourceGroup : list N;
  plan_name : list N
}.

Fixpoint dropWhile {A} (p : A -> bool) (l : list A) : list A :=
  match l with
  | [] => []
  | x :: l' => if p x then dropWhile p l' else l
  end.

Section Validation.

(** The built-ins of the language that the validations call: the white
    space that [trim] strips, [toLowerCase], and [localeCompare] (the
    sign of the comparison in the current locale). *)
Variable isWhiteSpace : N -> bool.
Variable toLowerCase : list N -> list N.
Variable localeCompare : list N -> list N -> Z.

(** [String.prototype.trim] *)
Definition trim (s : list N) : list N :=
  rev (dropWhile isWhiteSpace (rev (dropWhile isWhiteSpace s))).

Definition quoteUnit : list N := [34%N].

(** [validateInput] of the Web App name, in [WebsiteStep.prompt]. *)
Definition validateSiteName (value : list N) : option (list N) :=
  let value := trim value in
  if negb (matchPieces siteNamePattern value) then
    Some (units "App name should be 1-60 characters long and can only include alphanumeric characters and hyphens.")
  else None.

(** [validateInput] of the plan name, in [AppServicePlanStep.prompt];
    [rgName] is [rg.name] of the selected resource group. *)
Definition validatePlanName (plans : list AppServicePlan) (rgName : list N)
    (value : list N) : option (list N) :=
  let value := trim value in
  if (0 <=? Steps.findIndex
              (fun plan => bool_decide (toLowerCase (plan_resourceGroup plan) = rgName)
                           && (localeCompare value (plan_name plan) =? 0)%Z)
              plans)%Z then
    Some (units "App Service Plan name " ++ quoteUnit ++ value ++ quoteUnit
          ++ units " already exists in resource group " ++ quoteUnit ++ rgName
          ++ quoteUnit ++ units ".")
  else if negb (matchPieces planNamePattern value) then
    Some (units "App Service Plan name should be 1-40 characters long and can only include alphanumeric characters and hyphens.")
  else None.

(** [validateInput] of the resource group name, in
    [ResourceGroupStep.prompt]. *)
Definition validateGroupName (resourceGroups : list ResourceGroup)
    (value : list N) : option (list N) :=
  let value := trim value in
  if (0 <=? Steps.findIndex
              (fun rg => (localeCompare (rg_name rg) value =? 0)%Z)
              resourceGroups)%Z then
    Some (units "Resource group name " ++ quoteUnit ++ value ++ quoteUnit
          ++ units " already exists.")
  else if negb (matchPieces groupNamePattern value) then
    Some (units ("Resource group name should be 1-90 characters long and can only include alphanumeric characters, periods, "
                 +:+ "underscores, hyphens and parenthesis and cannot end in a period."))
  else None.

End Validation.

(** White space of the ASCII range, [toLowerCase] on the ASCII letters and
    a [localeCompare] that tells equal texts from different ones, to run
    the validations on ASCII texts. *)
Definition asciiWhiteSpace (c : N) : bool :=
  ((c =? 9) || (c =? 10) || (c =? 11) || (c =? 12) || (c =? 13) || (c =? 32))%N.

Definition asciiToLowerCase (s : list N) : list N :=
  (fun c => if ((65 <=? c) && (c <=? 90))%N then (c + 32)%N else c) <$> s.

Definition plainCompare (a b : list N) : Z :=
  if bool_decide (a = b) then 0%Z else 1%Z.

(** *** The tables of the prompts *)

(** [SkuDescription] *)
Record SkuDescription : Type := {
  sku_name : string;
  sku_tier : string;
  sku_size : string;
  sku_family : string;
  sku_capacity : nat
}.

(** [getPlanSkus()] *)
Definition getPlanSkus : list SkuDescription :=
  [ {| sku_name := "S1"; sku_tier := "Standard"; sku_size := "S1"; sku_family := "S"; sku_capacity := 1 |};
    {| sku_name := "S2"; sku_tier := "Standard"; sku_size := "S2"; sku_family := "S"; sku_capacity := 1 |};
    {| sku_name := "S3"; sku_tier := "Standard"; sku_size := "S3"; sku_family := "S"; sku_capacity := 1 |};
    {| sku_name := "B1"; sku_tier := "Basic"; sku_size := "B1"; sku_family := "B"; sku_capacity := 1 |};
    {| sku_name := "B2"; sku_tier := "Basic"; sku_size := "B2"; sku_family := "B"; sku_capacity := 1 |};
    {| sku_name := "B3"; sku_tier := "Basic"; sku_size := "B3"; sku_family := "B"; sku_capacity := 1 |} ].

(** [interface LinuxRuntimeStack] *)
Record LinuxRuntimeStack : Type := {
  rt_name : string;
  rt_displayName : string
}.

(** [getLinuxRuntimeStack()] *)
Definition getLinuxRuntimeStack : list LinuxRuntimeStack :=
  [ {| rt_name := "node|4.4"; rt_displayName := "Node.js 4.4" |};
    {| rt_name := "node|4.5"; rt_displayName := "Node.js 4.5" |};
    {| rt_name := "node|6.2"; rt_displayName := "Node.js 6.2" |};
    {| rt_name := "node|6.6"; rt_displayName := "Node.js 6.6" |};
    {| rt_name := "node|6.9"; rt_displayName := "Node.js 6.9" |};
    {| rt_name := "node|6.10"; rt_displayName := "Node.js 6.10" |};
    {| rt_name := "node|6.11"; rt_displayName := "Node.js 6.11" |};
    {| rt_name := "node|8.0"; rt_displayName := "Node.js 8.0" |};
    {| rt_name := "node|8.1"; rt_displayName := "Node.js 8.1" |} ].

(** [vscode.QuickPickItem] *)
Record QuickPickItem : Type := {
  label : string;
  description : string;
  detail : string
}.

(** The pricing tier items of [AppServicePlanStep.prompt]. *)
Definition pricingTiers : list QuickPickItem :=
  (fun sku => {| label := sku_name sku; description := sku_tier sku; detail := "" |})
    <$> getPlanSkus.

(** [availableSkus.find(s => s.name === pickedSkuItem.label)] *)
Definition pickedSku (pickedSkuItem : QuickPickItem) : option SkuDescription :=
  List.find (fun s => String.eqb (sku_name s) (label pickedSkuItem)) getPlanSkus.

(** The runtime items of [WebsiteStep.prompt]. *)
Definition runtimeItems : list QuickPickItem :=
  (fun rt => {| label := rt_displayName rt; description := ""; detail := "" |})
    <$> getLinuxRuntimeStack.

(** [linuxRuntimeStacks.find(rt => rt.displayName === pickedItem.label)];
    the prompt reads [.name] of what it finds. *)
Definition pickedRuntime (pickedItem : QuickPickItem) : option LinuxRuntimeStack :=
  List.find (fun rt => String.eqb (rt_displayName rt) (label pickedItem)) getLinuxRuntimeStack.

End WebAppCreator.

(* ===================================================================== *)
(** ** The step that selects a deployment slot *)
(* ===================================================================== *)
Module PromptSlotSelection.

Section Slots.

(** [SiteTreeItem]: the App Service node and its deployment slots. *)
Context {SiteTreeItem : Type}.

(** A child of the App Service node: the [DeploymentSlotsTreeItem], with
    what its [getCachedChildren] resolves to or throws, or another node. *)
Inductive AzureTreeItem : Type :=
| DeploymentSlotsTreeItem (cachedChildren : Error + list SiteTreeItem)
| OtherTreeItem (label : string).

(** [treeNode instanceof DeploymentSlotsTreeItem] *)
Definition isCategory (treeNode : AzureTreeItem) : bool :=
  match treeNode with
  | DeploymentSlotsTreeItem _ => true
  | OtherTreeItem _ => false
  end.

(** The [forEach] of [getDeploymentSlotsTreeItems]: every
    [DeploymentSlotsTreeItem] met is assigned to [deploymentSlotsCategoryNode]. *)
Definition categoryNode (result : list AzureTreeItem) : option AzureTreeItem :=
  foldl (fun deploymentSlotsCategoryNode treeNode =>
           match treeNode with
           | DeploymentSlotsTreeItem _ => Some treeNode
           | OtherTreeItem _ => deploymentSlotsCategoryNode
           end) None result.

(** [private async getDeploymentSlotsTreeItems(): Promise<SiteTreeItem[]>];
    [cached] is what [this._wizard.uiTreeItem.getCachedChildren] resolves
    to ([None] for a falsy value) or throws. *)
Definition getDeploymentSlotsTreeItems (uiTreeItem : SiteTreeItem)
    (cached : Error + option (list AzureTreeItem)) : Error + list SiteTreeItem :=
  match cached with
  | inl err => inl err
  | inr None => inl (MkError "Cannot find any tree node under the App Service node.")
  | inr (Some result) =>
      if Nat.leb (length result) 0 then
        inl (MkError "Cannot find any tree node under the App Service node.")
      else
        match categoryNode result with
        | Some (DeploymentSlotsTreeItem children) =>
            match children with
            | inl err => inl err
            | inr deploymentSlotTreeNodes => inr ([uiTreeItem] ++ deploymentSlotTreeNodes)
            end
        | _ => inl (MkError "Cannot find the Deployment Slots tree node")
        end
  end.

(** Whether [prompt] selects a slot by itself:
    [if (deploymentSlotsTreeItems.length === 1)]. *)
Definition selectsAutomatically (deploymentSlotsTreeItems : list SiteTreeItem) : bool :=
  Nat.eqb (length deploymentSlotsTreeItems) 1.

End Slots.

Arguments AzureTreeItem : clear implicits.

End PromptSlotSelection.

(* ===================================================================== *)
(** ** Properties of the wizard *)
(* ===================================================================== *)
Module WizardFacts.
Import Wizard.

Section WithWorld.
Context {W : Type}.
Implicit Types (this : WizardBase W) (w : W) (s : WizardStep W) (e : Error).

Lemma replay_app (a b : list (Action W)) w :
  replay (a ++ b) w = replay b (replay a w).
Proof. unfold replay. apply foldl_app. Qed.

Lemma prompts_ok_S i k : prompts_ok i (S k) = EvPrompt i None :: prompts_ok (S i) k.
Proof. reflexivity. Qed.

Lemma executes_ok_S i k :
  executes_ok i (S k) = EvBeforeExecute i None :: EvExecute i None :: executes_ok (S i) k.
Proof. reflexivity. Qed.

(** The first loop either goes through every prompt, or stops at the first
    one that throws. *)
Lemma prompt_loop_shape (rest : list (WizardStep W)) i w :
  ∃ w' evs r, prompt_loop rest i w = (w', evs, r) ∧
    ((r = None ∧ evs = prompts_ok i (length rest)
      ∧ w' = replay (prompt <$> rest) w) ∨
     (∃ k s e, rest !! k = Some s
      ∧ evs = prompts_ok i k ++ [EvPrompt (i + k) (Some e)]
      ∧ r = Some (failure s e)
      ∧ w' = replay (prompt <$> take (S k) rest) w)).
Proof.
  revert i w. induction rest as [|s rest IH]; intros i w; simpl.
  - eexists _, _, _. split; [reflexivity|]. left. done.
  - destruct (prompt s w) as [w1 [e|]] eqn:Hp.
    + exists w1, [EvPrompt i (Some e)], (Some (failure s e)). split.
      * unfold failure. by destruct (instanceof_UserCancelledError e).
      * right. exists 0, s, e. rewrite Nat.add_0_r. unfold replay. simpl.
        rewrite ?Hp. done.
    + destruct (IH (S i) w1) as (w' & evs & r & Heq & Hcases). rewrite Heq.
      eexists _, _, _. split; [reflexivity|].
      destruct Hcases as [(-> & -> & ->) | (k & s' & e & Hk & -> & -> & ->)].
      * left. rewrite prompts_ok_S. unfold replay. simpl. rewrite ?Hp. done.
      * right. exists (S k), s', e. rewrite prompts_ok_S, Nat.add_succ_r.
        unfold replay. simpl. rewrite ?Hp. done.
Qed.

Lemma try_execute_shape this s i w :
  ∃ w' evs t, try_execute this s i w = (w', evs, t) ∧
    ((t = None ∧ evs = [EvBeforeExecute i None; EvExecute i None]
      ∧ w' = replay [beforeExecute this s i; execute s] w) ∨
     (∃ e inHook, t = Some e ∧ evs = raiseEvents i e inHook
      ∧ w' = replay (raiseActions this i s inHook) w)).
Proof.
  unfold try_execute.
  destruct (beforeExecute this s i w) as [w1 [e|]] eqn:Hb.
  - eexists _, _, _. split; [reflexivity|]. right. exists e, true.
    unfold replay. simpl. rewrite Hb. done.
  - destruct (execute s w1) as [w2 [e|]] eqn:He.
    + eexists _, _, _. split; [reflexivity|]. right. exists e, false.
      unfold replay. simpl. rewrite Hb. simpl. rewrite He. done.
    + eexists _, _, _. split; [reflexivity|]. left.
      unfold replay. simpl. rewrite Hb. simpl. rewrite He. done.
Qed.

Lemma catch_execute_shape this s i e w :
  catch_execute this s i e w =
    ((onExecuteError this s i e w).1,
     [EvOnExecuteError i e (onExecuteError this s i e w).2],
     catchExit s e (onExecuteError this s i e w).2).
Proof.
  unfold catch_execute.
  destruct (onExecuteError this s i e w) as [w1 [e'|]]; simpl; [done|].
  unfold catchExit, failure.
  destruct (instanceof_UserCancelledError e); reflexivity.
Qed.

(** The second loop either executes every step, or stops at the first step
    where the hook or [execute] throws, after calling [onExecuteError]. *)
Lemma execute_loop_shape this (rest : list (WizardStep W)) i w :
  ∃ w' evs x, execute_loop this rest i w = (w', evs, x) ∧
    ((x = None ∧ evs = executes_ok i (length rest)
      ∧ w' = replay (executeActions this i rest) w) ∨
     (∃ k s e inHook, rest !! k = Some s
      ∧ let wb := replay (executeActions this i (take k rest)
                          ++ raiseActions this (i + k) s inHook) w in
        let t := (onExecuteError this s (i + k) e wb).2 in
        evs = executes_ok i k ++ raiseEvents (i + k) e inHook
              ++ [EvOnExecuteError (i + k) e t]
        ∧ x = Some (catchExit s e t)
        ∧ w' = (onExecuteError this s (i + k) e wb).1)).
Proof.
  revert i w. induction rest as [|s rest IH]; intros i w; simpl.
  - eexists _, _, _. split; [reflexivity|]. left. done.
  - destruct (try_execute_shape this s i w) as (w1 & evs1 & t1 & Htry & Hc).
    rewrite Htry.
    destruct Hc as [(-> & -> & ->) | (e & inHook & -> & -> & ->)].
    + destruct (IH (S i) (replay [beforeExecute this s i; execute s] w))
        as (w' & evs & x & Heq & Hcases).
      rewrite Heq. eexists _, _, _. split; [reflexivity|].
      destruct Hcases as [(-> & -> & ->) |
        (k & s' & e & inHook & Hk & -> & -> & ->)].
      * left. done.
      * right. exists (S k), s', e, inHook.
        rewrite Nat.add_succ_r. simpl. done.
    + rewrite catch_execute_shape. eexists _, _, _. split; [reflexivity|].
      right. exists 0, s, e, inHook. rewrite Nat.add_0_r. simpl. done.
Qed.


Lemma completed_step this :
  steps this !! (length (steps this) - 1) = last (steps this).
Proof. rewrite last_lookup. f_equal. lia. Qed.

(** The three courses a run can take: stopped by a prompt; stopped in the
    execute phase; gone through. *)
Lemma run_shape this w :
  let n := length (steps this) in
  (∃ k s e, steps this !! k = Some s
     ∧ run this w =
       {| final_world := replay (prompt <$> take (S k) (steps this)) w;
          final_wizard := this;
          events := prompts_ok 0 k ++ [EvPrompt k (Some e)];
          returned := inr (failure s e) |})
  ∨ (∃ k s e inHook, steps this !! k = Some s
     ∧ let wb := replay ((prompt <$> steps this)
                         ++ executeActions this 0 (take k (steps this))
                         ++ raiseActions this k s inHook) w in
       let t := (onExecuteError this s k e wb).2 in
       run this w =
       {| final_world := (onExecuteError this s k e wb).1;
          final_wizard := match t with
                          | Some _ => this
                          | None => set_result this (failure s e)
                          end;
          events := prompts_ok 0 n ++ EvOutputShow :: executes_ok 0 k
                    ++ raiseEvents k e inHook ++ [EvOnExecuteError k e t];
          returned := match t with
                      | Some e' => inl e'
                      | None => inr (failure s e)
                      end |})
  ∨ run this w =
       {| final_world := replay ((prompt <$> steps this)
                                 ++ executeActions this 0 (steps this)) w;
          final_wizard := set_result this (completed this);
          events := prompts_ok 0 n ++ EvOutputShow :: executes_ok 0 n;
          returned := inr (completed this) |}.
Proof.
  intros n. unfold run.
  destruct (prompt_loop_shape (steps this) 0 w) as (w1 & evs1 & r1 & Heq1 & Hc1).
  rewrite Heq1.
  destruct Hc1 as [(-> & -> & ->) | (k & s & e & Hk & -> & -> & ->)].
  - destruct (execute_loop_shape this (steps this) 0
                (replay (prompt <$> steps this) w))
      as (w2 & evs2 & x & Heq2 & Hc2).
    rewrite Heq2.
    destruct Hc2 as [(-> & -> & ->) | (k & s & e & inHook & Hk & Hrest)].
    + right; right. rewrite completed_step, replay_app. done.
    + right; left. exists k, s, e, inHook. split; [done|].
      simpl in Hrest. destruct Hrest as (-> & -> & ->).
      rewrite !replay_app. rewrite <- replay_app.
      destruct (onExecuteError this s k e _) as [w3 [e'|]]; simpl; done.
  - left. exists k, s, e. done.
Qed.


(** *** Reading the events of the three courses *)

Lemma elem_of_prompts_ok ev i k :
  ev ∈ prompts_ok i k ↔ ∃ j, i ≤ j < i + k ∧ ev = EvPrompt j None.
Proof.
  unfold prompts_ok. rewrite list_elem_of_fmap. split.
  - intros (j & -> & Hj). apply elem_of_seq in Hj. eauto.
  - intros (j & Hj & ->). exists j. split; [done|]. by apply elem_of_seq.
Qed.

Lemma elem_of_executes_ok ev i k :
  ev ∈ executes_ok i k ↔
  ∃ j, i ≤ j < i + k ∧ (ev = EvBeforeExecute j None ∨ ev = EvExecute j None).
Proof.
  revert i. induction k as [|k IH]; intros i.
  - split; [inversion 1 | intros (j & Hj & _); lia].
  - rewrite executes_ok_S, !elem_of_cons, IH. split.
    + intros [-> | [-> | (j & Hj & Hev)]].
      * exists i. split; [lia | by left].
      * exists i. split; [lia | by right].
      * exists j. split; [lia | done].
    + intros (j & Hj & Hev). destruct (decide (j = i)) as [-> | Hne].
      * destruct Hev as [-> | ->]; auto.
      * right; right. exists j. split; [lia | done].
Qed.

Lemma elem_of_raiseEvents ev k e inHook :
  ev ∈ raiseEvents k e inHook ↔
  (inHook = true ∧ ev = EvBeforeExecute k (Some e))
  ∨ (inHook = false ∧ (ev = EvBeforeExecute k None ∨ ev = EvExecute k (Some e))).
Proof.
  destruct inHook; simpl; rewrite ?elem_of_cons, elem_of_nil; split.
  - intros [-> | []]. by left.
  - intros [[_ ->] | [[=] _]]. by left.
  - intros [-> | [-> | []]]; right; auto.
  - intros [[[=] _] | [_ [-> | ->]]]; auto.
Qed.

Lemma raisedIn_app (a b : list Event) : raisedIn (a ++ b) = raisedIn a ++ raisedIn b.
Proof. apply omap_app. Qed.

Lemma raisedIn_prompts_ok i k : raisedIn (prompts_ok i k) = [].
Proof. revert i. induction k as [|k IH]; intros i; [done|]. rewrite prompts_ok_S. apply IH. Qed.

Lemma raisedIn_executes_ok i k : raisedIn (executes_ok i k) = [].
Proof. revert i. induction k as [|k IH]; intros i; [done|]. rewrite executes_ok_S. apply IH. Qed.

Lemma raisedIn_raiseEvents k e inHook : raisedIn (raiseEvents k e inHook) = [(k, e)].
Proof. by destruct inHook. Qed.




Lemma executeActions_take_S this i k (l : list (WizardStep W)) s :
  l !! k = Some s →
  executeActions this i (take (S k) l)
  = executeActions this i (take k l) ++ [beforeExecute this s (i + k); execute s].
Proof.
  revert i k. induction l as [|s' l IH]; intros i k Hk; [done|].
  destruct k as [|k]; simpl in *.
  - injection Hk as ->. rewrite Nat.add_0_r. done.
  - rewrite (IH (S i) k Hk), Nat.add_succ_r. done.
Qed.

Lemma raisedIn_prompt_stop k e :
  raisedIn (prompts_ok 0 k ++ [EvPrompt k (Some e)]) = [(k, e)].
Proof. rewrite raisedIn_app, raisedIn_prompts_ok. done. Qed.

Lemma raisedIn_execute_stop n k e inHook t :
  raisedIn (prompts_ok 0 n ++ EvOutputShow :: executes_ok 0 k
            ++ raiseEvents k e inHook ++ [EvOnExecuteError k e t]) = [(k, e)].
Proof.
  rewrite raisedIn_app, raisedIn_prompts_ok.
  change (raisedIn (executes_ok 0 k ++ raiseEvents k e inHook
                    ++ [EvOnExecuteError k e t]) = [(k, e)]).
  rewrite !raisedIn_app, raisedIn_executes_ok, raisedIn_raiseEvents. done.
Qed.

Lemma raisedIn_completed n :
  raisedIn (prompts_ok 0 n ++ EvOutputShow :: executes_ok 0 n) = [].
Proof.
  rewrite raisedIn_app, raisedIn_prompts_ok.
  change (raisedIn (executes_ok 0 n) = []). apply raisedIn_executes_ok.
Qed.

(** *** The events say what the steps did *)

(** A prompt event of the first loop records what that step's [prompt]
    threw in the world the earlier prompts left. *)
Lemma prompt_loop_sound (rest : list (WizardStep W)) i w j t :
  EvPrompt j t ∈ (prompt_loop rest i w).1.2 →
  ∃ k s, j = i + k ∧ rest !! k = Some s
    ∧ (prompt s (replay (prompt <$> take k rest) w)).2 = t.
Proof.
  revert i w. induction rest as [|s rest IH]; intros i w; simpl.
  - inversion 1.
  - destruct (prompt s w) as [w1 [e|]] eqn:Hp.
    + destruct (instanceof_UserCancelledError e); simpl;
        intros Hin; apply list_elem_of_singleton in Hin; injection Hin as -> ->;
        exists 0, s; rewrite Nat.add_0_r; unfold replay; simpl; by rewrite Hp.
    + destruct (prompt_loop rest (S i) w1) as [[w2 evs] r] eqn:Hloop. simpl.
      intros Hin. apply elem_of_cons in Hin as [Hin | Hin].
      * injection Hin as -> ->. exists 0, s. rewrite Nat.add_0_r.
        unfold replay. simpl. by rewrite Hp.
      * specialize (IH (S i) w1). rewrite Hloop in IH.
        destruct (IH Hin) as (k & s' & -> & Hk & Ht).
        exists (S k), s'. split; [lia|]. split; [done|].
        unfold replay in *. simpl. by rewrite Hp.
Qed.

Lemma prompt_loop_no_execute (rest : list (WizardStep W)) i w j t :
  EvExecute j t ∉ (prompt_loop rest i w).1.2.
Proof.
  destruct (prompt_loop_shape rest i w) as (w' & evs & r & -> & Hc). simpl.
  destruct Hc as [(_ & -> & _) | (k & s & e & _ & -> & _)]; intros Hin.
  - apply elem_of_prompts_ok in Hin as (? & _ & [=]).
  - apply elem_of_app in Hin as [Hin | Hin].
    + apply elem_of_prompts_ok in Hin as (? & _ & [=]).
    + apply list_elem_of_singleton in Hin. discriminate.
Qed.

(** An execute event of the second loop records what that step's
    [execute] threw in the world the earlier calls left. *)
Lemma execute_loop_sound this (rest : list (WizardStep W)) i w j t :
  EvExecute j t ∈ (execute_loop this rest i w).1.2 →
  ∃ k s, j = i + k ∧ rest !! k = Some s
    ∧ (execute s (replay (executeActions this i (take k rest)
                          ++ [beforeExecute this s j]) w)).2 = t.
Proof.
  revert i w. induction rest as [|s rest IH]; intros i w; simpl.
  - inversion 1.
  - unfold try_execute.
    destruct (beforeExecute this s i w) as [w1 [e|]] eqn:Hb.
    + rewrite catch_execute_shape. simpl. intros Hin.
      apply elem_of_cons in Hin as [[=] | Hin].
      apply list_elem_of_singleton in Hin. discriminate.
    + destruct (execute s w1) as [w2 [e|]] eqn:He.
      * rewrite catch_execute_shape. simpl. intros Hin.
        apply elem_of_cons in Hin as [[=] | Hin].
        apply elem_of_cons in Hin as [Hin | Hin].
        -- injection Hin as -> ->. exists 0, s. rewrite Nat.add_0_r.
           unfold replay. simpl. rewrite Hb. simpl. by rewrite He.
        -- apply list_elem_of_singleton in Hin. discriminate.
      * destruct (execute_loop this rest (S i) w2) as [[w3 evs] x] eqn:Hloop. simpl.
        intros Hin.
        apply elem_of_cons in Hin as [[=] | Hin].
        apply elem_of_cons in Hin as [Hin | Hin].
        -- injection Hin as -> ->. exists 0, s. rewrite Nat.add_0_r.
           unfold replay. simpl. rewrite Hb. simpl. by rewrite He.
        -- specialize (IH (S i) w2). rewrite Hloop in IH.
           destruct (IH Hin) as (k & s' & -> & Hk & Ht).
           exists (S k), s'. split; [lia|]. split; [done|].
           unfold replay in *. simpl. rewrite Hb. simpl. rewrite He. done.
Qed.

Lemma execute_loop_no_prompt this (rest : list (WizardStep W)) i w j t :
  EvPrompt j t ∉ (execute_loop this rest i w).1.2.
Proof.
  destruct (execute_loop_shape this rest i w) as (w' & evs & x & -> & Hc). simpl.
  destruct Hc as [(_ & -> & _) | (k & s & e & inHook & _ & Hrest)]; intros Hin.
  - apply elem_of_executes_ok in Hin as (? & _ & [[=] | [=]]).
  - simpl in Hrest. destruct Hrest as (-> & _).
    apply elem_of_app in Hin as [Hin | Hin].
    { apply elem_of_executes_ok in Hin as (? & _ & [[=] | [=]]). }
    apply elem_of_app in Hin as [Hin | Hin].
    + apply elem_of_raiseEvents in Hin as [[_ [=]] | [_ [[=] | [=]]]].
    + apply list_elem_of_singleton in Hin. discriminate.
Qed.

(** The events of a run are what happened: a prompt (execute) event of
    step [j] carries what that step's [prompt] ([execute]) threw when
    called in the world left by the calls before it. *)
Lemma run_events_sound this w :
  (∀ j t, EvPrompt j t ∈ events (run this w) →
     ∃ s, steps this !! j = Some s
       ∧ (prompt s (replay (prompt <$> take j (steps this)) w)).2 = t)
  ∧ (∀ j t, EvExecute j t ∈ events (run this w) →
     ∃ s, steps this !! j = Some s
       ∧ (execute s (replay ((prompt <$> steps this)
                             ++ executeActions this 0 (take j (steps this))
                             ++ [beforeExecute this s j]) w)).2 = t).
Proof.
  unfold run.
  pose proof (prompt_loop_sound (steps this) 0 w) as Hps.
  pose proof (prompt_loop_no_execute (steps this) 0 w) as Hpn.
  destruct (prompt_loop_shape (steps this) 0 w) as (w1 & evs1 & r1 & Heq1 & Hc1).
  rewrite Heq1 in Hps, Hpn |- *. cbn [fst snd] in Hps, Hpn.
  destruct Hc1 as [(-> & _ & ->) | (k & s & e & _ & _ & -> & _)].
  - pose proof (execute_loop_sound this (steps this) 0
                  (replay (prompt <$> steps this) w)) as Hes.
    pose proof (execute_loop_no_prompt this (steps this) 0
                  (replay (prompt <$> steps this) w)) as Hen.
    destruct (execute_loop this (steps this) 0 (replay (prompt <$> steps this) w))
      as [[w2 evs2] x]. cbn [fst snd] in Hes, Hen.
    assert (Hev : ∀ ev, ev ∈ evs1 ++ EvOutputShow :: evs2 →
                        ev ∈ evs1 ∨ ev = EvOutputShow ∨ ev ∈ evs2).
    { intros ev Hin. apply elem_of_app in Hin as [? | Hin]; [by left|].
      apply elem_of_cons in Hin as [? | ?]; auto. }
    assert (Hgoal :
      (∀ j t, EvPrompt j t ∈ evs1 ++ EvOutputShow :: evs2 →
         ∃ s, steps this !! j = Some s
           ∧ (prompt s (replay (prompt <$> take j (steps this)) w)).2 = t)
      ∧ (∀ j t, EvExecute j t ∈ evs1 ++ EvOutputShow :: evs2 →
         ∃ s, steps this !! j = Some s
           ∧ (execute s (replay ((prompt <$> steps this)
                                 ++ executeActions this 0 (take j (steps this))
                                 ++ [beforeExecute this s j]) w)).2 = t)).
    { split; intros j t Hin; apply Hev in Hin as [Hin | [[=] | Hin]].
      - destruct (Hps j t Hin) as (k' & s & -> & Hk & Ht). eauto.
      - by apply Hen in Hin.
      - by apply Hpn in Hin.
      - destruct (Hes j t Hin) as (k' & s & -> & Hk & Ht). exists s.
        split; [done|]. rewrite replay_app. done. }
    destruct x as [[err|r]|]; exact Hgoal.
  - cbn [events]. split; intros j t Hin.
    + destruct (Hps j t Hin) as (k' & s' & -> & Hk & Ht). eauto.
    + by apply Hpn in Hin.
Qed.

(** *** The run against what the steps do *)

Lemma promptCalls_actions (l : list (WizardStep W)) :
  snd <$> promptCalls l = prompt <$> l.
Proof. unfold promptCalls. rewrite <- list_fmap_compose. done. Qed.

Lemma executeCalls_actions this i (l : list (WizardStep W)) :
  snd <$> executeCalls this i l = executeActions this i l.
Proof. revert i. induction l as [|s l IH]; intros i; [done|]. simpl. by rewrite IH. Qed.

(** The first raise among calls made one list after the other. *)
Lemma firstRaise_app (a b : list (WizardStep W * Action W)) w :
  firstRaise (a ++ b) w
  = match firstRaise a w with
    | Some x => Some x
    | None => firstRaise b (replay (snd <$> a) w)
    end.
Proof.
  revert w. induction a as [|[s act] a IH]; intros w; [done|].
  simpl. unfold replay. simpl.
  destruct (act w) as [w1 [e|]] eqn:Hact; [done|]. simpl. apply IH.
Qed.

(** The first loop returns for the first prompt that raises, and only
    then. *)
Lemma prompt_loop_firstRaise (rest : list (WizardStep W)) i w :
  (prompt_loop rest i w).2
  = match firstRaise (promptCalls rest) w with
    | Some (s, e) => Some (failure s e)
    | None => None
    end.
Proof.
  revert i w. induction rest as [|s rest IH]; intros i w; [done|].
  simpl. destruct (prompt s w) as [w1 [e|]] eqn:Hp.
  - unfold failure. by destruct (instanceof_UserCancelledError e).
  - specialize (IH (S i) w1).
    destruct (prompt_loop rest (S i) w1) as [[w2 evs] r]. exact IH.
Qed.

(** The second loop stops at the first hook or [execute] that raises, and
    only then. *)
Lemma execute_loop_firstRaise this (rest : list (WizardStep W)) i w :
  match firstRaise (executeCalls this i rest) w with
  | Some (s, e) =>
      ∃ j w', (execute_loop this rest i w).2
              = Some (catchExit s e (onExecuteError this s j e w').2)
  | None => (execute_loop this rest i w).2 = None
  end.
Proof.
  revert i w. induction rest as [|s rest IH]; intros i w; [done|].
  simpl. unfold try_execute.
  destruct (beforeExecute this s i w) as [w1 [e|]] eqn:Hb.
  - rewrite catch_execute_shape. simpl. eauto.
  - destruct (execute s w1) as [w2 [e|]] eqn:He.
    + rewrite catch_execute_shape. simpl. eauto.
    + specialize (IH (S i) w2).
      destruct (execute_loop this rest (S i) w2) as [[w3 evs] x]. exact IH.
Qed.

(** A run whose prompts raise: the result for the first one that does, and
    the wizard object as it was. *)
Lemma run_prompt_raises this w s e :
  firstRaise (promptCalls (steps this)) w = Some (s, e) →
  returned (run this w) = inr (failure s e) ∧ final_wizard (run this w) = this.
Proof.
  intros Hfirst. unfold run.
  pose proof (prompt_loop_firstRaise (steps this) 0 w) as Hr. rewrite Hfirst in Hr.
  destruct (prompt_loop (steps this) 0 w) as [[w1 evs1] r1]. simpl in Hr. subst r1.
  done.
Qed.

(** A run whose prompts do not raise, the [onExecuteError] hook not
    throwing: the result that the calls of the steps determine, returned
    and stored. *)
Lemma run_prompts_pass this w :
  (∀ s i e w', (onExecuteError this s i e w').2 = None) →
  firstRaise (promptCalls (steps this)) w = None →
  returned (run this w) = inr (specResult this w)
  ∧ final_wizard (run this w) = set_result this (specResult this w).
Proof.
  intros Hsafe Hfirst. unfold run, specResult, runCalls.
  rewrite firstRaise_app, Hfirst, promptCalls_actions.
  pose proof (prompt_loop_firstRaise (steps this) 0 w) as Hr. rewrite Hfirst in Hr.
  destruct (prompt_loop_shape (steps this) 0 w) as (w1 & evs1 & r1 & Heq1 & Hc1).
  rewrite Heq1 in Hr |- *. simpl in Hr. subst r1.
  destruct Hc1 as [(_ & _ & ->) | (k & s & e & _ & _ & [=] & _)].
  pose proof (execute_loop_firstRaise this (steps this) 0
                (replay (prompt <$> steps this) w)) as Hx.
  destruct (execute_loop this (steps this) 0 (replay (prompt <$> steps this) w))
    as [[w2 evs2] x]. simpl in Hx.
  destruct (firstRaise (executeCalls this 0 (steps this)) _) as [[s e]|].
  - destruct Hx as (j & w' & ->). rewrite Hsafe. done.
  - subst x. rewrite completed_step. done.
Qed.

(** The result of any run whose [onExecuteError] hook does not throw. *)
Lemma run_returns_specResult this w :
  (∀ s i e w', (onExecuteError this s i e w').2 = None) →
  returned (run this w) = inr (specResult this w).
Proof.
  intros Hsafe.
  destruct (firstRaise (promptCalls (steps this)) w) as [[s e]|] eqn:Hfirst.
  - destruct (run_prompt_raises this w s e Hfirst) as [-> _].
    unfold specResult, runCalls. rewrite firstRaise_app, Hfirst. done.
  - by destruct (run_prompts_pass this w Hsafe Hfirst) as [-> _].
Qed.

(** *** The result of a run *)

(** What the result of a stopped run says, given the one error raised. *)
Lemma failure_agrees this (evs : list Event) k s e :
  steps this !! k = Some s →
  raisedIn evs = [(k, e)] →
  (status (failure s e) = Cancelled ↔
     ∃ i e', (i, e') ∈ raisedIn evs ∧ instanceof_UserCancelledError e' = true)
  ∧ (status (failure s e) = Faulted ↔
     ∃ i e', (i, e') ∈ raisedIn evs ∧ instanceof_UserCancelledError e' = false)
  ∧ (status (failure s e) = Completed ↔ raisedIn evs = [])
  ∧ (∀ i e', (i, e') ∈ raisedIn evs →
       step (failure s e) = steps this !! i ∧ error (failure s e) = Some e')
  ∧ (status (failure s e) = Completed →
       step (failure s e) = last (steps this) ∧ error (failure s e) = None).
Proof.
  intros Hk ->. unfold failure. cbn [status step error].
  assert (Hin : ∀ i e', (i, e') ∈ [(k, e)] → i = k ∧ e' = e).
  { intros i e' H. apply list_elem_of_singleton in H. by injection H. }
  assert (Hk_in : (k, e) ∈ [(k, e)]) by (by apply list_elem_of_singleton).
  split_and!.
  - destruct (instanceof_UserCancelledError e) eqn:He; split; try done.
    + intros _. eauto.
    + intros (i & e' & [-> ->]%Hin & He'). congruence.
  - destruct (instanceof_UserCancelledError e) eqn:He; split; try done.
    + intros (i & e' & [-> ->]%Hin & He'). congruence.
    + intros _. eauto.
  - destruct (instanceof_UserCancelledError e); split; done.
  - intros i e' [-> ->]%Hin. by rewrite Hk.
  - destruct (instanceof_UserCancelledError e); done.
Qed.

(** The result of a run in the events of the run. *)
Lemma run_result_in_events this w :
  (∀ s i e w', (onExecuteError this s i e w').2 = None) →
  ∃ r, returned (run this w) = inr r
    ∧ (status r = Cancelled ↔
         ∃ i e, (i, e) ∈ raisedIn (events (run this w))
                ∧ instanceof_UserCancelledError e = true)
    ∧ (status r = Faulted ↔
         ∃ i e, (i, e) ∈ raisedIn (events (run this w))
                ∧ instanceof_UserCancelledError e = false)
    ∧ (status r = Completed ↔ raisedIn (events (run this w)) = [])
    ∧ (∀ i e, (i, e) ∈ raisedIn (events (run this w)) →
         step r = steps this !! i ∧ error r = Some e)
    ∧ (status r = Completed → step r = last (steps this) ∧ error r = None).
Proof.
  intros Hsafe.
  destruct (run_shape this w) as
    [(k & s & e & Hk & ->) | [(k & s & e & inHook & Hk & Hrun) | ->]].
  - exists (failure s e). cbn [returned events]. split; [done|].
    apply (failure_agrees this _ k); [done | apply raisedIn_prompt_stop].
  - cbn zeta in Hrun. rewrite Hsafe in Hrun. rewrite Hrun.
    exists (failure s e). cbn [returned events]. split; [done|].
    apply (failure_agrees this _ k); [done | apply raisedIn_execute_stop].
  - exists (completed this). cbn [returned events]. split; [done|].
    rewrite raisedIn_completed. unfold completed. cbn [status step error].
    split_and!; try done.
    + split; [discriminate | intros (i & e & Hin & _); inversion Hin].
    + split; [discriminate | intros (i & e & Hin & _); inversion Hin].
    + intros i e Hin. inversion Hin.
Qed.

(** [C2] One call of [run] yields exactly one [WizardResult], whatever the
    steps' [prompt] and [execute] do (the [onExecuteError] hook, as in the
    base class, not throwing), and it is the result that the calls of the
    steps determine: with the calls made in the order of the run, each in
    the world the calls before it left, its status is [Cancelled] exactly
    when the first call that raises raises a [UserCancelledError],
    [Faulted] exactly when it raises another error, [Completed] exactly
    when no call raises; it carries the step of that call and the error,
    or the last step (undefined for a wizard without steps) and no error
    on completion. The events of the run say the same. *)
Theorem run_one_result this w :
  (∀ s i e w', (onExecuteError this s i e w').2 = None) →
  ∃ r, returned (run this w) = inr r
    ∧ (∀ r', returned (run this w) = inr r' → r' = r)
    ∧ r = specResult this w
    ∧ (status r = Cancelled ↔
         ∃ s e, firstRaise (runCalls this) w = Some (s, e)
                ∧ instanceof_UserCancelledError e = true)
    ∧ (status r = Faulted ↔
         ∃ s e, firstRaise (runCalls this) w = Some (s, e)
                ∧ instanceof_UserCancelledError e = false)
    ∧ (status r = Completed ↔ firstRaise (runCalls this) w = None)
    ∧ (∀ s e, firstRaise (runCalls this) w = Some (s, e) →
         step r = Some s ∧ error r = Some e)
    ∧ (status r = Completed → step r = last (steps this) ∧ error r = None)
    ∧ (status r = Cancelled ↔
         ∃ i e, (i, e) ∈ raisedIn (events (run this w))
                ∧ instanceof_UserCancelledError e = true)
    ∧ (status r = Faulted ↔
         ∃ i e, (i, e) ∈ raisedIn (events (run this w))
                ∧ instanceof_UserCancelledError e = false)
    ∧ (status r = Completed ↔ raisedIn (events (run this w)) = [])
    ∧ (∀ i e, (i, e) ∈ raisedIn (events (run this w)) →
         step r = steps this !! i ∧ error r = Some e).
Proof.
  intros Hsafe.
  pose proof (run_returns_specResult this w Hsafe) as Hret.
  destruct (run_result_in_events this w Hsafe)
    as (r & Hr & Hcancelled & Hfaulted & Hcompleted & Hstep & _).
  assert (r = specResult this w) as -> by congruence.
  exists (specResult this w). split; [done|]. split; [congruence|]. split; [done|].
  split_and!; try done; clear; unfold specResult;
    destruct (firstRaise (runCalls this) w) as [[s e]|]; cbn [status step error].
  - destruct (instanceof_UserCancelledError e) eqn:He; split; try done.
    + intros _. eauto.
    + intros (s' & e' & [= <- <-] & He'). congruence.
  - split; [done | intros (s' & e' & [=] & _)].
  - destruct (instanceof_UserCancelledError e) eqn:He; split; try done.
    + intros (s' & e' & [= <- <-] & He'). congruence.
    + intros _. eauto.
  - split; [done | intros (s' & e' & [=] & _)].
  - destruct (instanceof_UserCancelledError e); split; done.
  - done.
  - intros s' e' [= <- <-]. done.
  - done.
  - by destruct (instanceof_UserCancelledError e).
  - done.
Qed.

(** *** The order of the calls *)




(** *** A failure in the execute phase *)

(** Where an [execute] that threw sits in the events of a run stopped in
    the execute phase. *)
Lemma execute_thrown_inv n k e inHook t i e0 :
  EvExecute i (Some e0) ∈ prompts_ok 0 n ++ EvOutputShow :: executes_ok 0 k
                          ++ raiseEvents k e inHook ++ [EvOnExecuteError k e t] →
  inHook = false ∧ i = k ∧ e0 = e.
Proof.
  intros Hin.
  apply elem_of_app in Hin as [Hin | Hin].
  { apply elem_of_prompts_ok in Hin as (j' & _ & [=]). }
  apply elem_of_cons in Hin as [[=] | Hin].
  apply elem_of_app in Hin as [Hin | Hin].
  { apply elem_of_executes_ok in Hin as (j' & _ & [[=] | [=]]). }
  apply elem_of_app in Hin as [Hin | Hin].
  - apply elem_of_raiseEvents in Hin as [[_ [=]] | [-> [[=] | [= -> ->]]]]. done.
  - apply list_elem_of_singleton in Hin. discriminate.
Qed.

(** [C4] When, in a run, the [execute] of step [i] throws an error that is
    not a cancellation (so every prompt went through, and so did the
    executes of the steps before [i]), [run] returns
    [{status: 'Faulted', step: steps[i], error}], no [execute] of a later
    step is called, and the world is left as the calls made so far left it:
    every prompt, the hook and [execute] of steps 0 to [i], then the
    [onExecuteError] hook, which does nothing in the base class; nothing
    is undone. *)
Theorem run_execute_fault this w i e :
  (∀ s j e' w', (onExecuteError this s j e' w').2 = None) →
  EvExecute i (Some e) ∈ events (run this w) →
  instanceof_UserCancelledError e = false →
  ∃ s, steps this !! i = Some s
    ∧ returned (run this w)
      = inr {| status := Faulted; step := Some s; error := Some e |}
    ∧ (∀ j, j < length (steps this) → EvPrompt j None ∈ events (run this w))
    ∧ (∀ j, j < i → EvExecute j None ∈ events (run this w))
    ∧ (∀ j t, EvExecute j t ∈ events (run this w) → (j ≤ i)%nat)
    ∧ final_world (run this w)
      = replay ((prompt <$> steps this)
                ++ executeActions this 0 (take (S i) (steps this))
                ++ [onExecuteError this s i e]) w.
Proof.
  intros Hsafe Hin He.
  destruct (run_shape this w) as
    [(k & s & e1 & Hk & Hrun) | [(k & s & e1 & inHook & Hk & Hrun) | Hrun]].
  - exfalso. rewrite Hrun in Hin. cbn [events] in Hin.
    apply elem_of_app in Hin as [Hin | Hin].
    + apply elem_of_prompts_ok in Hin as (j & _ & [=]).
    + apply list_elem_of_singleton in Hin. discriminate.
  - cbn zeta in Hrun. rewrite Hsafe in Hrun. rewrite Hrun in Hin |- *.
    cbn [events returned final_world] in Hin |- *.
    apply execute_thrown_inv in Hin as (-> & -> & ->).
    exists s. split; [done|]. split.
    { unfold failure. by rewrite He. }
    split_and!.
    + intros j Hj. apply elem_of_app. left.
      apply elem_of_prompts_ok. exists j. split; [lia | done].
    + intros j Hj. apply elem_of_app. right. apply elem_of_cons. right.
      apply elem_of_app. left. apply elem_of_executes_ok.
      exists j. split; [lia | by right].
    + intros j t Hin.
      apply elem_of_app in Hin as [Hin | Hin].
      { apply elem_of_prompts_ok in Hin as (j' & _ & [=]). }
      apply elem_of_cons in Hin as [[=] | Hin].
      apply elem_of_app in Hin as [Hin | Hin].
      { apply elem_of_executes_ok in Hin as (j' & Hj' & [[=] | [= -> _]]). lia. }
      apply elem_of_app in Hin as [Hin | Hin].
      * apply elem_of_raiseEvents in Hin as [[[=] _] | [_ [[=] | [= -> _]]]]. done.
      * apply list_elem_of_singleton in Hin. discriminate.
    + rewrite (executeActions_take_S this 0 k _ s Hk).
      unfold raiseActions. rewrite !(assoc_L (++)).
      rewrite (replay_app _ [onExecuteError this s k e1]). simpl.
      rewrite <- !(assoc_L (++)). done.
  - exfalso. rewrite Hrun in Hin. cbn [events] in Hin.
    apply elem_of_app in Hin as [Hin | Hin].
    { apply elem_of_prompts_ok in Hin as (j' & _ & [=]). }
    apply elem_of_cons in Hin as [[=] | Hin].
    apply elem_of_executes_ok in Hin as (j' & _ & [[=] | [=]]).
Qed.

(** *** What a run leaves on the wizard object *)

(** What a run leaves on the wizard object, in the events of the run. *)
Lemma run_retention_in_events this w :
  (∀ s i e w', (onExecuteError this s i e w').2 = None) →
  _steps (final_wizard (run this w)) = _steps this
  ∧ beforeExecute (final_wizard (run this w)) = beforeExecute this
  ∧ onExecuteError (final_wizard (run this w)) = onExecuteError this
  ∧ ((∃ i e, EvPrompt i (Some e) ∈ events (run this w)) →
       (∃ r, returned (run this w) = inr r)
       ∧ _result (final_wizard (run this w)) = _result this)
  ∧ ((∀ i e, EvPrompt i (Some e) ∉ events (run this w)) →
       ∃ r, returned (run this w) = inr r
            ∧ _result (final_wizard (run this w)) = Some r).
Proof.
  intros Hsafe.
  destruct (run_shape this w) as
    [(k & s & e1 & Hk & ->) | [(k & s & e1 & inHook & Hk & Hrun) | ->]].
  - cbn [final_wizard events returned]. split_and!; try done.
    + intros _. eauto.
    + intros Hno. exfalso. apply (Hno k e1).
      apply elem_of_app. right. by apply list_elem_of_singleton.
  - cbn zeta in Hrun. rewrite Hsafe in Hrun. rewrite Hrun.
    cbn [final_wizard events returned]. split_and!; try done.
    + intros (i & e & Hin). exfalso.
      apply elem_of_app in Hin as [Hin | Hin].
      { apply elem_of_prompts_ok in Hin as (j' & _ & [=]). }
      apply elem_of_cons in Hin as [[=] | Hin].
      apply elem_of_app in Hin as [Hin | Hin].
      { apply elem_of_executes_ok in Hin as (j' & _ & [[=] | [=]]). }
      apply elem_of_app in Hin as [Hin | Hin].
      * apply elem_of_raiseEvents in Hin as [[_ [=]] | [_ [[=] | [=]]]].
      * apply list_elem_of_singleton in Hin. discriminate.
    + intros _. eauto.
  - cbn [final_wizard events returned]. split_and!; try done.
    + intros (i & e & Hin). exfalso.
      apply elem_of_app in Hin as [Hin | Hin].
      { apply elem_of_prompts_ok in Hin as (j' & _ & [=]). }
      apply elem_of_cons in Hin as [[=] | Hin].
      apply elem_of_executes_ok in Hin as (j' & _ & [[=] | [=]]).
    + intros _. eauto.
Qed.

(** [C9] A run in which a prompt raises returns the result for the first
    prompt that does and leaves the wizard object, [_result] included, as
    it was: the result is not retained. A run whose prompts all go through
    (the [onExecuteError] hook, as in the base class, not throwing) has
    stored in [_result] the very result it returns, be it the failure of
    the execute phase or the completion. The step list and the hooks are
    never changed. The events of the run say the same. *)
Theorem run_result_retention this w :
  (∀ s i e w', (onExecuteError this s i e w').2 = None) →
  _steps (final_wizard (run this w)) = _steps this
  ∧ beforeExecute (final_wizard (run this w)) = beforeExecute this
  ∧ onExecuteError (final_wizard (run this w)) = onExecuteError this
  ∧ (∀ s e, firstRaise (promptCalls (steps this)) w = Some (s, e) →
       returned (run this w)
       = inr {| status := if instanceof_UserCancelledError e then Cancelled else Faulted;
                step := Some s; error := Some e |}
       ∧ _result (final_wizard (run this w)) = _result this)
  ∧ (firstRaise (promptCalls (steps this)) w = None →
       returned (run this w) = inr (specResult this w)
       ∧ _result (final_wizard (run this w)) = Some (specResult this w))
  ∧ ((∃ i e, EvPrompt i (Some e) ∈ events (run this w)) →
       (∃ r, returned (run this w) = inr r)
       ∧ _result (final_wizard (run this w)) = _result this)
  ∧ ((∀ i e, EvPrompt i (Some e) ∉ events (run this w)) →
       ∃ r, returned (run this w) = inr r
            ∧ _result (final_wizard (run this w)) = Some r).
Proof.
  intros Hsafe.
  destruct (run_retention_in_events this w Hsafe) as (Hsteps & Hbefore & Hon & Hp & Hx).
  split_and!; try done.
  - intros s e Hfirst.
    destruct (run_prompt_raises this w s e Hfirst) as [-> ->]. done.
  - intros Hfirst.
    destruct (run_prompts_pass this w Hsafe Hfirst) as [-> ->]. done.
Qed.

End WithWorld.

(** *** The three-step scenarios of the design document *)

(** All prompts go through and the second step's [execute] throws: the
    first step's effect stays, the third step is never executed. *)
Example demoFaulted_run :
  returned (run demoFaulted []) = inr (failure (demoStep "2" None (Some (MkError "boom")))
                                              (MkError "boom"))
  ∧ final_world (run demoFaulted [])
    = ["prompt 1"; "prompt 2"; "prompt 3"; "execute 1"; "execute 2"]
  ∧ _result (final_wizard (run demoFaulted [])) ≠ None.
Proof. vm_compute. split_and!; done. Qed.

(** The second step's prompt is cancelled: nothing is executed and the
    result is not kept on the wizard. *)
Example demoCancelled_run :
  returned (run demoCancelled [])
  = inr {| status := Cancelled;
           step := Some (demoStep "2" (Some (UserCancelledError "")) None);
           error := Some (UserCancelledError "") |}
  ∧ final_world (run demoCancelled []) = ["prompt 1"; "prompt 2"]
  ∧ _result (final_wizard (run demoCancelled [])) = None.
Proof. vm_compute. split_and!; done. Qed.

Example demoCompleted_run :
  returned (run demoCompleted [])
  = inr {| status := Completed; step := Some (demoStep "3" None None); error := None |}
  ∧ events (run demoCompleted []) = prompts_ok 0 3 ++ EvOutputShow :: executes_ok 0 3.
Proof. vm_compute. split_and!; done. Qed.

(** [findStep] fails with the caller's message when no step matches. *)
Lemma findStep_none {W} (this : WizardBase W) predicate errorMessage :
  (∀ s, s ∈ steps this → predicate s = false) →
  findStep this predicate errorMessage = inl (MkError errorMessage).
Proof.
  intros Hnone. unfold findStep.
  destruct (find predicate (steps this)) as [s|] eqn:Hfind; [|done].
  apply find_some in Hfind as [Hin Hp].
  apply list_elem_of_In in Hin. rewrite (Hnone s Hin) in Hp. done.
Qed.

Lemma run_one_result_witness :
  returned (run demoCancelled [])
  = inr {| status := Cancelled;
           step := Some (demoStep "2" (Some (UserCancelledError "")) None);
           error := Some (UserCancelledError "") |}
  ∧ returned (run demoFaulted [])
    = inr {| status := Faulted;
             step := Some (demoStep "2" None (Some (MkError "boom")));
             error := Some (MkError "boom") |}
  ∧ returned (run demoCompleted [])
    = inr {| status := Completed; step := Some (demoStep "3" None None); error := None |}.
Proof.
  destruct (run_one_result demoCancelled [] (fun _ _ _ _ => eq_refl))
    as (r1 & Hr1 & _ & Hs1 & _).
  destruct (run_one_result demoFaulted [] (fun _ _ _ _ => eq_refl))
    as (r2 & Hr2 & _ & Hs2 & _).
  destruct (run_one_result demoCompleted [] (fun _ _ _ _ => eq_refl))
    as (r3 & Hr3 & _ & Hs3 & _).
  rewrite Hr1, Hr2, Hr3, Hs1, Hs2, Hs3. split_and!; reflexivity.
Defined.

Lemma run_execute_fault_witness :
  ∃ s, steps demoFaulted !! 1 = Some s
    ∧ returned (run demoFaulted [])
      = inr {| status := Faulted; step := Some s; error := Some (MkError "boom") |}
    ∧ (∀ j, j < length (steps demoFaulted) → EvPrompt j None ∈ events (run demoFaulted []))
    ∧ (∀ j, j < 1 → EvExecute j None ∈ events (run demoFaulted []))
    ∧ (∀ j t, EvExecute j t ∈ events (run demoFaulted []) → (j ≤ 1)%nat)
    ∧ final_world (run demoFaulted [])
      = replay ((prompt <$> steps demoFaulted)
                ++ executeActions demoFaulted 0 (take 2 (steps demoFaulted))
                ++ [onExecuteError demoFaulted s 1 (MkError "boom")]) [].
Proof.
  apply (run_execute_fault demoFaulted [] 1 (MkError "boom")).
  - intros; reflexivity.
  - refine (bool_decide_unpack _ _). vm_compute. exact I.
  - reflexivity.
Defined.

Lemma run_result_retention_witness :
  (returned (run demoCancelled [])
   = inr {| status := Cancelled;
            step := Some (demoStep "2" (Some (UserCancelledError "")) None);
            error := Some (UserCancelledError "") |}
   ∧ _result (final_wizard (run demoCancelled [])) = None)
  ∧ (returned (run demoFaulted [])
     = inr {| status := Faulted;
              step := Some (demoStep "2" None (Some (MkError "boom")));
              error := Some (MkError "boom") |}
     ∧ _result (final_wizard (run demoFaulted []))
       = Some {| status := Faulted;
                 step := Some (demoStep "2" None (Some (MkError "boom")));
                 error := Some (MkError "boom") |})
  ∧ (returned (run demoCompleted [])
     = inr {| status := Completed; step := Some (demoStep "3" None None); error := None |}
     ∧ _result (final_wizard (run demoCompleted []))
       = Some {| status := Completed; step := Some (demoStep "3" None None);
                 error := None |}).
Proof.
  destruct (run_result_retention demoCancelled [] (fun _ _ _ _ => eq_refl))
    as (_ & _ & _ & Hcancelled & _).
  destruct (run_result_retention demoFaulted [] (fun _ _ _ _ => eq_refl))
    as (_ & _ & _ & _ & Hfaulted & _).
  destruct (run_result_retention demoCompleted [] (fun _ _ _ _ => eq_refl))
    as (_ & _ & _ & _ & Hcompleted & _).
  pose proof (Hcancelled (demoStep "2" (Some (UserCancelledError "")) None)
                (UserCancelledError "") eq_refl) as H1.
  pose proof (Hfaulted eq_refl) as H2.
  pose proof (Hcompleted eq_refl) as H3.
  split; [exact H1 | split; [exact H2 | exact H3]].
Defined.

End WizardFacts.

(* ===================================================================== *)
(** ** Properties of the remote SSH session manager *)
(* ===================================================================== *)
Module RemoteSshFacts.
Import RemoteSsh.

Implicit Types (env : Env) (st : State) (node : SiteTreeItem).

Arguments sshCommand : simpl never.
Arguments alreadyStartedMessage : simpl never.
Arguments disconnectedMessage : simpl never.
Arguments notRunningMessage : simpl never.
Arguments notFoundMessage : simpl never.
Arguments sshTerminalName : simpl never.
Arguments onlyLinuxMessage : simpl never.
Arguments notAFunctionMessage : simpl never.

(** Unfold the operations down to functions on the state. *)
Ltac unfold_ops :=
  unfold startRemoteSsh, stopRemoteSsh, startRemoteSshInternal,
    actionContext_connectToTunnelProxy, connectToTunnelProxy, unbound,
    closeListener_run, resolveNode, showTreeItemPicker,
    activeSshSessions_set, getSiteConfig, getPortPromise, reportMessage,
    setRemoteDebug, getWebAppPublishCredential, new_TunnelProxy, startProxy,
    tunnelProxy_dispose, createTerminal, sendText, delay, show,
    terminal_dispose, appendLine, call, emit, modify, gets, try_catch,
    bind, ret, throw in *.

(** Case on whether the collaborator call [c] throws. *)
Ltac case_call c :=
  match goal with
  | |- context [throws ?env c] => destruct (throws env c) eqn:?; simpl
  end.

(** Close the case of [startRemoteSshInternal_cases] in which a
    collaborator threw or the site is not Linux. *)
Ltac solve_stopped :=
  split_and!;
  first
    [ done
    | by (intros ? ?; apply lookup_insert_ne)
    | eexists _, _; split; [by rewrite <- ?app_assoc|];
      split; [done|];
      split; [repeat constructor|];
      split; [eexists; reflexivity|];
      right; split; [done|];
      split; [first [by left | right; eexists; eassumption]|];
      first [ intros; congruence | intros _; split; [done | congruence] ] ].

(** Close the case in which the tunnel was started. *)
Ltac solve_reached :=
  split_and!;
  first
    [ done
    | by (intros ? ?; apply lookup_insert_ne)
    | eexists _, _; split; [by rewrite <- ?app_assoc|];
      split; [done|];
      split; [repeat constructor|];
      split; [done|];
      left; split_and!; first [done | apply lookup_insert_eq] ].

(** The calls since [st] are what was appended to its trace. *)
Lemma trace_eventsSince st st' evs :
  trace st' = trace st ++ evs → eventsSince st st' = evs.
Proof. intros H. unfold eventsSince. rewrite H. apply drop_app_length. Qed.

(** [connectToTunnelProxy], whoever calls it, throws at the evaluation of
    [node] and does nothing. *)
Lemma connectToTunnelProxy_throws tunnelProxy st :
  connectToTunnelProxy tunnelProxy st = (st, inl (ReferenceError "node is not defined")).
Proof. reflexivity. Qed.

(** The bring-up, case by case in the order of its calls. It never
    returns normally: it throws what a collaborator threw, the "only
    supported for Linux" error, or, with the tunnel started, the
    [TypeError] of the call on the action context. It never touches the
    registry, the terminals or the listeners; its calls are an initial part
    of [bringUpEvents], and all of it exactly when the tunnel was
    started. *)
Lemma startRemoteSshInternal_cases env node st :
  let k := fullName (client node) in
  let st' := (startRemoteSshInternal env node st).1 in
  let r := (startRemoteSshInternal env node st).2 in
  activeSshSessions st' = activeSshSessions st
  ∧ terminals st' = terminals st
  ∧ closeListeners st' = closeListeners st
  ∧ nextProcessId st' = nextProcessId st
  ∧ (∀ k', k' ≠ k → siteConfigs st' !! k' = siteConfigs st !! k')
  ∧ ∃ evs e, trace st' = trace st ++ evs
    ∧ r = inl e
    ∧ Forall (fun ev => isBringUpEvent ev = true) evs
    ∧ evs `prefix_of` bringUpEvents k (freePort env) (remoteDebugOf k st)
    ∧ ((isLinux (client node) = true
        ∧ evs = bringUpEvents k (freePort env) (remoteDebugOf k st)
        ∧ e = TypeError notAFunctionMessage
        ∧ siteConfigs st' !! k
          = (if remoteDebugOf k st then Some false else siteConfigs st !! k)
        ∧ tunnels st' = tunnels st ++ [boundTunnel env node])
       ∨ (tunnels st' = tunnels st
          ∧ (isLinux (client node) = false ∨ ∃ c, throws env c = Some e)
          ∧ (isLinux (client node) = false →
               siteConfigs st' = siteConfigs st
               ∧ (throws env CallGetSiteConfig = None →
                  throws env CallGetPort = None → e = MkError onlyLinuxMessage)))).
Proof.
  intros k. unfold remoteDebugOf, bringUpEvents. unfold_ops. simpl.
  case_call CallGetSiteConfig; [solve_stopped|].
  case_call CallGetPort; [solve_stopped|].
  destruct (isLinux (client node)) eqn:HL; simpl; [|solve_stopped].
  fold k.
  destruct (default false (siteConfigs st !! k)) eqn:Hcfg; simpl.
  - case_call CallUpdateConfiguration; [solve_stopped|].
    case_call CallGetWebAppPublishCredential; [solve_stopped|].
    case_call CallStartProxy; [solve_stopped|].
    solve_reached.
  - case_call CallGetWebAppPublishCredential; [solve_stopped|].
    case_call CallStartProxy; [solve_stopped|].
    solve_reached.
Qed.


(** [startRemoteSsh] on a given node: the duplicate check, then the
    registration, the bring-up and, should it throw, the release. *)
Lemma startRemoteSsh_unfold env node st :
  let k := fullName (client node) in
  startRemoteSsh env (Some node) st =
  if isActive k st then (st, inl (MkError (alreadyStartedMessage k)))
  else match startRemoteSshInternal env node (registered k st) with
       | (st2, inl e) => (released k st2, inl e)
       | (st2, inr a) => (st2, inr a)
       end.
Proof.
  intros k. unfold startRemoteSsh, isActive, resolveNode.
  unfold bind at 1. unfold ret at 1. unfold bind at 1. unfold gets at 1.
  fold k. destruct (truthy (activeSshSessions st !! k)); [done|].
  unfold activeSshSessions_set, try_catch, emit, modify, bind, throw.
  fold (registered k st).
  destruct (startRemoteSshInternal env node (registered k st)) as [st2 [e|[]]]; done.
Qed.

Lemma startRemoteSsh_picked env st :
  startRemoteSsh env None st =
  match throws env CallShowTreeItemPicker with
  | Some e => (picked st, inl e)
  | None => startRemoteSsh env (Some (pickedNode env)) (picked st)
  end.
Proof.
  unfold startRemoteSsh, resolveNode, showTreeItemPicker, call, emit, modify.
  unfold bind, ret, throw, picked.
  destruct (throws env CallShowTreeItemPicker); done.
Qed.

Lemma stopRemoteSsh_picked env st :
  stopRemoteSsh env None st =
  match throws env CallShowTreeItemPicker with
  | Some e => (picked st, inl e)
  | None => stopRemoteSsh env (Some (pickedNode env)) (picked st)
  end.
Proof.
  unfold stopRemoteSsh, resolveNode, showTreeItemPicker, call, emit, modify.
  unfold bind, ret, throw, picked.
  destruct (throws env CallShowTreeItemPicker); done.
Qed.


(** A call of [startRemoteSsh] that passes the duplicate check: it throws
    what the bring-up throws, having registered the target and released
    the registration. *)
Lemma startRemoteSsh_cases env node st :
  let k := fullName (client node) in
  let st' := (startRemoteSsh env (Some node) st).1 in
  let r := (startRemoteSsh env (Some node) st).2 in
  let expected := bringUpEvents k (freePort env) (remoteDebugOf k st) in
  isActive k st = false →
  ∃ evs e, r = inl e
    ∧ trace st' = trace st ++ EvSessionsSet k true :: evs ++ [EvSessionsSet k false]
    ∧ Forall (fun ev => isBringUpEvent ev = true) evs
    ∧ evs `prefix_of` expected
    ∧ activeSshSessions st' = <[k := false]> (activeSshSessions st)
    ∧ terminals st' = terminals st
    ∧ closeListeners st' = closeListeners st
    ∧ nextProcessId st' = nextProcessId st
    ∧ (∀ k', k' ≠ k → siteConfigs st' !! k' = siteConfigs st !! k')
    ∧ ((isLinux (client node) = true
        ∧ evs = expected
        ∧ e = TypeError notAFunctionMessage
        ∧ siteConfigs st' !! k
          = (if remoteDebugOf k st then Some false else siteConfigs st !! k)
        ∧ tunnels st' = tunnels st ++ [boundTunnel env node])
       ∨ (tunnels st' = tunnels st
          ∧ (isLinux (client node) = false ∨ ∃ c, throws env c = Some e)
          ∧ (isLinux (client node) = false →
               siteConfigs st' = siteConfigs st
               ∧ (throws env CallGetSiteConfig = None →
                  throws env CallGetPort = None → e = MkError onlyLinuxMessage)))).
Proof.
  intros k st' r expected Hidle. subst st' r expected.
  rewrite (startRemoteSsh_unfold env node st). fold k. rewrite Hidle.
  destruct (startRemoteSshInternal_cases env node (registered k st))
    as (Hsessions & Hterms & Hlisteners & Hpid & Hothers & evs & e & Htrace & Hr
        & Hall & Hprefix & Hres).
  fold k in Hprefix, Hres, Hothers.
  destruct (startRemoteSshInternal env node (registered k st)) as [st2 r2];
    cbn [fst snd] in *. subst r2.
  exists evs, e. split; [done|].
  split. { cbn. rewrite Htrace. cbn. by rewrite <- !app_assoc. }
  split; [done|]. split; [done|].
  split. { cbn. rewrite Hsessions. cbn. by rewrite insert_insert_eq. }
  split_and!; try done.
Qed.

(** For a Linux site and collaborators that do not throw, the second case
    of [startRemoteSsh_cases] is excluded. *)
Lemma startRemoteSsh_reaches_tunnel env node st :
  let k := fullName (client node) in
  let st' := (startRemoteSsh env (Some node) st).1 in
  isActive k st = false →
  isLinux (client node) = true →
  (∀ c, throws env c = None) →
  (startRemoteSsh env (Some node) st).2 = inl (TypeError notAFunctionMessage)
  ∧ trace st' = trace st ++ EvSessionsSet k true
                :: bringUpEvents k (freePort env) (remoteDebugOf k st)
                ++ [EvSessionsSet k false]
  ∧ activeSshSessions st' = <[k := false]> (activeSshSessions st)
  ∧ siteConfigs st' !! k
    = (if remoteDebugOf k st then Some false else siteConfigs st !! k)
  ∧ tunnels st' = tunnels st ++ [boundTunnel env node].
Proof.
  intros k st' Hidle HL Hok. subst st'.
  destruct (startRemoteSsh_cases env node st Hidle)
    as (evs & e & Hr & Htrace & _ & _ & Hs & _ & _ & _ & _ & Hres).
  fold k in Htrace, Hs, Hres.
  destruct Hres as [(_ & -> & -> & Hcfg & Htu) | (_ & [Hnot | [c Hc]] & _)].
  - done.
  - congruence.
  - rewrite Hok in Hc. discriminate.
Qed.


(** *** The duplicate check and the registration *)





(** [C6] In a call of [startRemoteSsh] that passes the duplicate check,
    any failure of the bring-up reaches the caller and leaves the target's
    entry in the registry at [false]; for a site that is not Linux the call
    does fail (with the "only supported for Linux" error once the
    configuration and the port were obtained), and it leaves the site
    configuration, the terminals, the tunnels and the listeners as they
    were. *)
Theorem startRemoteSsh_not_linux env node st :
  let k := fullName (client node) in
  let st' := (startRemoteSsh env (Some node) st).1 in
  let r := (startRemoteSsh env (Some node) st).2 in
  isActive k st = false →
  (∀ e, r = inl e → activeSshSessions st' !! k = Some false ∧ isActive k st' = false)
  ∧ (isLinux (client node) = false →
       ∃ e, r = inl e
         ∧ (throws env CallGetSiteConfig = None →
            throws env CallGetPort = None → e = MkError onlyLinuxMessage)
         ∧ activeSshSessions st' !! k = Some false
         ∧ isActive k st' = false
         ∧ siteConfigs st' = siteConfigs st
         ∧ terminals st' = terminals st
         ∧ tunnels st' = tunnels st
         ∧ closeListeners st' = closeListeners st).
Proof.
  intros k st' r Hidle.
  destruct (startRemoteSsh_cases env node st Hidle)
    as (evs & e & Hr & _ & _ & _ & Hs & Ht & Hl & _ & _ & Hres).
  fold k in Hs, Hres. fold st' in Hs, Ht, Hl, Hres. fold r in Hr.
  assert (Hfalse : activeSshSessions st' !! k = Some false).
  { rewrite Hs. apply lookup_insert_eq. }
  assert (Hinactive : isActive k st' = false).
  { unfold isActive. by rewrite Hfalse. }
  split; [done|].
  intros Hnot. exists e.
  destruct Hres as [(HL & _) | (Htu & _ & Hlinux)]; [congruence|].
  destruct (Hlinux Hnot) as [Hcfg He]. done.
Qed.


(** *** The order of the bring-up *)

Lemma bringUpActions_expected key port wasEnabled :
  bringUpActions (bringUpEvents key port wasEnabled) = tunnelBringUpOrder.
Proof. destruct wasEnabled; reflexivity. Qed.

Lemma bringUpActions_prefix (evs evs' : list Event) :
  evs `prefix_of` evs' → bringUpActions evs `prefix_of` bringUpActions evs'.
Proof. intros [rest ->]. unfold bringUpActions. rewrite omap_app. by eexists. Qed.

Lemma bringUpActions_app (a b : list Event) :
  bringUpActions (a ++ b) = bringUpActions a ++ bringUpActions b.
Proof. apply omap_app. Qed.

Lemma tunnelBringUpOrder_prefix : tunnelBringUpOrder `prefix_of` codeBringUpOrder.
Proof. eexists. reflexivity. Qed.

(** The actions of a call that passed the duplicate check are those of its
    bring-up. *)
Lemma bringUpActions_started k (evs : list Event) :
  bringUpActions (EvSessionsSet k true :: evs ++ [EvSessionsSet k false])
  = bringUpActions evs.
Proof.
  change (bringUpActions (evs ++ [EvSessionsSet k false]) = bringUpActions evs).
  rewrite bringUpActions_app. cbn. apply app_nil_r.
Qed.

(** [C8] (as the code has it) In a call of [startRemoteSsh] that passes the
    duplicate check the registration comes first, and the actions of the
    bring-up that are performed are in the order of the code, as far as
    the bring-up gets: the fetch of the site configuration (the snapshot),
    the port, the platform check, the disabling of remote debugging, the
    publish credential, the tunnel, and then what the text places after
    the tunnel. For a Linux site, when no collaborator throws, the actions
    up to the opening of the tunnel are all performed, with the calls
    [bringUpEvents] in this order. For a site that is not Linux, once the
    configuration and the port were obtained, the platform check is the
    third and last action. *)
Theorem startRemoteSsh_order env node st :
  let k := fullName (client node) in
  let st' := (startRemoteSsh env (Some node) st).1 in
  isActive k st = false →
  (∃ rest, eventsSince st st' = EvSessionsSet k true :: rest)
  ∧ bringUpActions (eventsSince st st') `prefix_of` codeBringUpOrder
  ∧ (isLinux (client node) = true → (∀ c, throws env c = None) →
       (∃ rest, eventsSince st st'
                = EvSessionsSet k true
                  :: bringUpEvents k (freePort env) (remoteDebugOf k st) ++ rest)
       ∧ tunnelBringUpOrder `prefix_of` bringUpActions (eventsSince st st'))
  ∧ (isLinux (client node) = false →
       throws env CallGetSiteConfig = None → throws env CallGetPort = None →
       bringUpActions (eventsSince st st')
       = [SnapshotConfiguration; ReservePort; VerifyPlatform]).
Proof.
  intros k st' Hidle. subst st'.
  assert (Hnot : isLinux (client node) = false →
    throws env CallGetSiteConfig = None → throws env CallGetPort = None →
    bringUpActions (eventsSince st (startRemoteSsh env (Some node) st).1)
    = [SnapshotConfiguration; ReservePort; VerifyPlatform]).
  { intros HL Hcfg Hport. rewrite startRemoteSsh_unfold. fold k. rewrite Hidle.
    unfold startRemoteSshInternal. unfold_ops. simpl.
    rewrite Hcfg. simpl. rewrite Hport. simpl. fold k. rewrite HL. simpl.
    rewrite (trace_eventsSince st _
               [EvSessionsSet k true; EvGetSiteConfig k; EvGetPort;
                EvCheckIsLinux k; EvSessionsSet k false]);
      [reflexivity | cbn; by rewrite <- !app_assoc]. }
  destruct (startRemoteSsh_cases env node st Hidle)
    as (evs & e & _ & Htrace & _ & Hprefix & _).
  fold k in Htrace, Hprefix.
  apply trace_eventsSince in Htrace. rewrite Htrace in *.
  split; [eauto|]. split; [|split; [|done]].
  - rewrite bringUpActions_started.
    etrans; [|apply tunnelBringUpOrder_prefix].
    rewrite <- (bringUpActions_expected k (freePort env) (remoteDebugOf k st)).
    by apply bringUpActions_prefix.
  - intros HL Hok.
    destruct (startRemoteSsh_reaches_tunnel env node st Hidle HL Hok)
      as (_ & Htrace' & _).
    fold k in Htrace'. apply trace_eventsSince in Htrace'.
    rewrite Htrace in Htrace'.
    apply (app_inv_tail [EvSessionsSet k false] (EvSessionsSet k true :: evs)
             (EvSessionsSet k true
              :: bringUpEvents k (freePort env) (remoteDebugOf k st))) in Htrace'.
    injection Htrace' as ->.
    split; [eauto|].
    rewrite bringUpActions_started, bringUpActions_expected. done.
Qed.

(** [C8] (as stated) The actions are not in the order of the design
    document, which has the platform check first: for the Windows site
    the configuration is fetched and the port found before the platform
    is checked, and for "app1" likewise. The platform check is the third
    action of the run where the document has it first, before the
    snapshot; neither sequence is an initial part of the document's. *)
Lemma bringUp_order_not_spec :
  eventsSince st0 (startRemoteSsh envOk (Some winApp) st0).1
  = [EvSessionsSet "winApp" true; EvGetSiteConfig "winApp"; EvGetPort;
     EvCheckIsLinux "winApp"; EvSessionsSet "winApp" false]
  ∧ bringUpActions (eventsSince st0 (startRemoteSsh envOk (Some winApp) st0).1)
    = [SnapshotConfiguration; ReservePort; VerifyPlatform]
  ∧ specBringUpOrder !! 0 = Some VerifyPlatform
  ∧ specBringUpOrder !! 1 = Some SnapshotConfiguration
  ∧ ¬ bringUpActions (eventsSince st0 (startRemoteSsh envOk (Some winApp) st0).1)
      `prefix_of` specBringUpOrder
  ∧ ¬ bringUpActions (eventsSince st0 (startRemoteSsh envOk (Some app1) st0).1)
      `prefix_of` specBringUpOrder.
Proof.
  split_and!; [reflexivity | reflexivity | reflexivity | reflexivity | |];
    intros [rest Hrest]; vm_compute in Hrest; discriminate.
Qed.


(** *** Stopping a session *)

(** The loop of [stopRemoteSsh] stops at the first terminal of that name. *)
Lemma find_first {A} (p : A → bool) (pre : list A) (x : A) (post : list A) :
  (∀ y, y ∈ pre → p y = false) → p x = true →
  find p (pre ++ x :: post) = Some x.
Proof.
  intros Hpre Hx. induction pre as [|y pre IH]; simpl.
  - by rewrite Hx.
  - rewrite (Hpre y (list_elem_of_here _ _)). apply IH.
    intros z Hz. apply Hpre. by apply list_elem_of_further.
Qed.

Lemma find_none {A} (p : A → bool) (l : list A) :
  (∀ y, y ∈ l → p y = false) → find p l = None.
Proof.
  intros Hl. induction l as [|y l IH]; simpl; [done|].
  rewrite (Hl y (list_elem_of_here _ _)). apply IH.
  intros z Hz. apply Hl. by apply list_elem_of_further.
Qed.

(** [C7] [stopRemoteSsh] for a target without an active registration
    throws the "not currently running" error and does nothing else: the
    state is as it was, so no terminal was looked up or disposed. With an
    active registration it disposes the first terminal named after the
    target, and only that; when there is no terminal of that name it
    throws the "could not be found" error, having done nothing but read
    the terminals: the registry still reports the session. *)
Theorem stopRemoteSsh_cases env node st :
  let k := fullName (client node) in
  let st' := (stopRemoteSsh env (Some node) st).1 in
  let r := (stopRemoteSsh env (Some node) st).2 in
  (isActive k st = false →
     stopRemoteSsh env (Some node) st = (st, inl (MkError (notRunningMessage k))))
  ∧ (isActive k st = true →
     ∀ pre t post,
       terminals st = pre ++ t :: post →
       name t = sshTerminalName node →
       (∀ t', t' ∈ pre → name t' ≠ sshTerminalName node) →
       r = inr tt
       ∧ eventsSince st st' = [EvReadTerminals; EvTerminalDispose (processId t)]
       ∧ terminals st' = filter (fun t' => processId t' ≠ processId t) (terminals st)
       ∧ activeSshSessions st' = activeSshSessions st
       ∧ siteConfigs st' = siteConfigs st
       ∧ tunnels st' = tunnels st
       ∧ closeListeners st' = closeListeners st)
  ∧ (isActive k st = true →
     (∀ t, t ∈ terminals st → name t ≠ sshTerminalName node) →
     r = inl (MkError (notFoundMessage (sshTerminalName node)))
     ∧ eventsSince st st' = [EvReadTerminals]
     ∧ terminals st' = terminals st
     ∧ activeSshSessions st' = activeSshSessions st
     ∧ isActive k st' = true).
Proof.
  intros k st' r. subst st' r. unfold isActive. split_and!.
  - intros Hidle. unfold stopRemoteSsh, resolveNode, bind, ret, gets, throw.
    fold k. by rewrite Hidle.
  - intros Hactive pre t post Hts Hname Hpre.
    unfold stopRemoteSsh, resolveNode, terminal_dispose, emit, modify, bind, ret, gets, throw.
    assert (Hfind : find (fun terminal => String.eqb (name terminal) (sshTerminalName node))
                         (terminals st) = Some t).
    { rewrite Hts. apply find_first.
      - intros t' Ht'. apply String.eqb_neq. by apply Hpre.
      - by apply String.eqb_eq. }
    fold k. rewrite Hactive. cbn. rewrite Hfind. cbn.
    split_and!; try done.
    apply trace_eventsSince. cbn. by rewrite <- app_assoc.
  - intros Hactive Hnone.
    unfold stopRemoteSsh, resolveNode, terminal_dispose, emit, modify, bind, ret, gets, throw.
    assert (Hfind : find (fun terminal => String.eqb (name terminal) (sshTerminalName node))
                         (terminals st) = None).
    { apply find_none. intros t' Ht'. apply String.eqb_neq. by apply Hnone. }
    fold k. rewrite Hactive. cbn. rewrite Hfind. cbn.
    split_and!; try done. by apply trace_eventsSince.
Qed.

(** *** Teardown *)





(** *** The registry keeps its keys *)

(** What each operation does to the registry. *)
Lemma startRemoteSsh_sessions env o st :
  let k := fullName (client (targetOf env o)) in
  let m' := activeSshSessions (startRemoteSsh env o st).1 in
  m' = activeSshSessions st
  ∨ m' = <[k := true]> (activeSshSessions st)
  ∨ m' = <[k := false]> (activeSshSessions st).
Proof.
  assert (Hgiven : ∀ node st0,
    let k := fullName (client node) in
    let m' := activeSshSessions (startRemoteSsh env (Some node) st0).1 in
    m' = activeSshSessions st0 ∨ m' = <[k := true]> (activeSshSessions st0)
    ∨ m' = <[k := false]> (activeSshSessions st0)).
  { intros node st0 k m'. subst m'.
    destruct (isActive k st0) eqn:Hactive.
    - left. rewrite startRemoteSsh_unfold. fold k. by rewrite Hactive.
    - destruct (startRemoteSsh_cases env node st0 Hactive)
        as (evs & e & _ & _ & _ & _ & Hs & _); auto. }
  intros k m'. subst k m'.
  destruct o as [node|]; cbn [targetOf]; [apply Hgiven|].
  rewrite startRemoteSsh_picked.
  destruct (throws env CallShowTreeItemPicker); [by left|].
  apply (Hgiven (pickedNode env) (picked st)).
Qed.

Lemma stopRemoteSsh_sessions env o st :
  activeSshSessions (stopRemoteSsh env o st).1 = activeSshSessions st.
Proof.
  assert (Hgiven : ∀ node st0,
    activeSshSessions (stopRemoteSsh env (Some node) st0).1 = activeSshSessions st0).
  { intros node st0.
    unfold stopRemoteSsh, resolveNode, terminal_dispose, emit, modify, bind, ret, gets, throw.
    destruct (negb _); [done|]. cbn.
    destruct (find _ _); done. }
  destruct o as [node|]; [apply Hgiven|].
  rewrite stopRemoteSsh_picked.
  destruct (throws env CallShowTreeItemPicker); [done|].
  apply (Hgiven (pickedNode env) (picked st)).
Qed.

Lemma closeListener_run_sessions env l e st :
  let k := fullName (client (l_node l)) in
  let m' := activeSshSessions (closeListener_run env l e st).1 in
  m' = activeSshSessions st ∨ m' = <[k := false]> (activeSshSessions st).
Proof.
  intros k m'. subst m'. unfold closeListener_run.
  destruct (bool_decide (processId e = processId (l_terminal l))); [|by left].
  unfold_ops. fold k. simpl.
  destruct (l_tunnelProxy l) as [tp|]; simpl.
  - destruct (throws env CallTunnelDispose); simpl; [by left|].
    destruct (bool_decide _); simpl; [by right|].
    destruct (throws env CallUpdateConfiguration); simpl; by right.
  - destruct (bool_decide _); simpl; [by right|].
    destruct (throws env CallUpdateConfiguration); simpl; by right.
Qed.






(** *** The theorems at work on the scenario *)


Lemma startRemoteSsh_not_linux_witness :
  isActive "winApp" st0 = false
  ∧ ∃ e, (startRemoteSsh envOk (Some winApp) st0).2 = inl e
      ∧ e = MkError onlyLinuxMessage
      ∧ activeSshSessions (startRemoteSsh envOk (Some winApp) st0).1 !! "winApp"
        = Some false.
Proof.
  split; [reflexivity |].
  destruct (startRemoteSsh_not_linux envOk winApp st0 eq_refl) as [_ Hnot].
  destruct (Hnot eq_refl) as (e & He & Hmsg & Hs & _).
  exists e. split_and!; [exact He | exact (Hmsg eq_refl eq_refl) | exact Hs].
Defined.

Lemma stopRemoteSsh_cases_witness :
  stopRemoteSsh envOk (Some app1) st0 = (st0, inl (MkError (notRunningMessage "app1")))
  ∧ (stopRemoteSsh envOk (Some app1) stActive).2 = inr tt
  ∧ terminals (stopRemoteSsh envOk (Some app1) stActive).1 = []
  ∧ (stopRemoteSsh envOk (Some app1) stDrift).2
    = inl (MkError (notFoundMessage "app1 - Remote SSH"))
  ∧ isActive "app1" (stopRemoteSsh envOk (Some app1) stDrift).1 = true.
Proof.
  destruct (stopRemoteSsh_cases envOk app1 st0) as (Hidle & _ & _).
  destruct (stopRemoteSsh_cases envOk app1 stActive) as (_ & Hfound & _).
  destruct (stopRemoteSsh_cases envOk app1 stDrift) as (_ & _ & Hdrift).
  destruct (Hfound eq_refl [] terminal1 [] eq_refl eq_refl) as (Hr & _ & Ht & _).
  { intros t' Ht'. inversion Ht'. }
  destruct (Hdrift eq_refl) as (Hr' & _ & _ & _ & Ha).
  { intros t' Ht'. inversion Ht'. }
  split_and!; [exact (Hidle eq_refl) | exact Hr | exact Ht | exact Hr' | exact Ha].
Defined.

Lemma startRemoteSsh_order_witness :
  isActive "app1" st0 = false
  ∧ (∃ rest, eventsSince st0 st1
             = EvSessionsSet "app1" true :: bringUpEvents "app1" 8000 true ++ rest)
  ∧ tunnelBringUpOrder `prefix_of` bringUpActions (eventsSince st0 st1)
  ∧ bringUpActions (eventsSince st0 (startRemoteSsh envOk (Some winApp) st0).1)
    = [SnapshotConfiguration; ReservePort; VerifyPlatform].
Proof.
  split; [reflexivity |].
  destruct (startRemoteSsh_order envOk app1 st0 eq_refl) as (_ & _ & Hlinux & _).
  destruct (startRemoteSsh_order envOk winApp st0 eq_refl) as (_ & _ & _ & Hwindows).
  destruct (Hlinux eq_refl (fun c => eq_refl)) as [Hevents Hactions].
  split; [exact Hevents|]. split; [exact Hactions|].
  exact (Hwindows eq_refl eq_refl eq_refl).
Defined.


End RemoteSshFacts.

(* ===================================================================== *)
(** ** Properties of the steps' own members *)
(* ===================================================================== *)
Module StepsFacts.
Import Wizard WizardFacts Steps.

Section WithWorld.
Context {W : Type}.
Implicit Types (this : WizardBase W) (w : W) (s : WizardStep W) (e : Error).

Lemma prompts_ok_lookup i k j :
  j < k → EvPrompt (i + j) None ∈ prompts_ok i k.
Proof. intros Hj. apply elem_of_prompts_ok. exists (i + j). split; [lia | done]. Qed.

(** The run when the prompts before step [k] go through and the prompt of
    step [k] throws [e]. *)
Lemma run_prompt_throws this w k s e :
  steps this !! k = Some s →
  (∀ j s', j < k → steps this !! j = Some s' →
     (prompt s' (replay (prompt <$> take j (steps this)) w)).2 = None) →
  (prompt s (replay (prompt <$> take k (steps this)) w)).2 = Some e →
  run this w =
    {| final_world := replay (prompt <$> take (S k) (steps this)) w;
       final_wizard := this;
       events := prompts_ok 0 k ++ [EvPrompt k (Some e)];
       returned := inr (failure s e) |}.
Proof.
  intros Hk Hbefore Hthrows.
  destruct (run_events_sound this w) as [Hsound _].
  assert (Hnot : ¬ EvPrompt k None ∈ events (run this w)).
  { intros Hin. destruct (Hsound k None Hin) as (s' & Hs' & Hnone). congruence. }
  destruct (run_shape this w) as
    [(k' & s' & e' & Hk' & Hrun) | [(k' & s' & e' & inHook & Hk' & Hrun) | Hrun]].
  - rewrite Hrun in Hsound, Hnot. cbn [events] in Hsound, Hnot.
    assert (Hlast : EvPrompt k' (Some e') ∈ prompts_ok 0 k' ++ [EvPrompt k' (Some e')]).
    { apply elem_of_app. right. by apply list_elem_of_singleton. }
    destruct (Hsound k' (Some e') Hlast) as (s'' & Hs'' & He').
    destruct (Nat.lt_trichotomy k' k) as [Hlt | [-> | Hgt]].
    + rewrite (Hbefore k' s'' Hlt Hs'') in He'. discriminate.
    + rewrite Hrun. simplify_eq. done.
    + exfalso. apply Hnot. apply elem_of_app. left.
      apply (prompts_ok_lookup 0 k' k Hgt).
  - exfalso. apply Hnot. cbn zeta in Hrun. rewrite Hrun. cbn [events].
    apply elem_of_app. left. apply (prompts_ok_lookup 0 _ k).
    by apply lookup_lt_Some in Hk.
  - exfalso. apply Hnot. rewrite Hrun. cbn [events].
    apply elem_of_app. left. apply (prompts_ok_lookup 0 _ k).
    by apply lookup_lt_Some in Hk.
Qed.

(** [X1] [run] stops at the first prompt that throws: when the prompts of
    the steps before [k] go through, each in the world its predecessors
    left, and the prompt of step [k] throws [e], [run] returns the result
    for step [k] and [e] ([Cancelled] for a [UserCancelledError], else
    [Faulted]); the only calls made are the prompts of steps 0 to [k]; the
    output is not shown, no hook and no [execute] is called, and the wizard
    object is left as it was. *)
Theorem run_stops_at_first_throwing_prompt this w k s e :
  steps this !! k = Some s →
  (∀ j s', j < k → steps this !! j = Some s' →
     (prompt s' (replay (prompt <$> take j (steps this)) w)).2 = None) →
  (prompt s (replay (prompt <$> take k (steps this)) w)).2 = Some e →
  run this w =
    {| final_world := replay (prompt <$> take (S k) (steps this)) w;
       final_wizard := this;
       events := prompts_ok 0 k ++ [EvPrompt k (Some e)];
       returned := inr (failure s e) |}
  ∧ (∀ ev, ev ∈ events (run this w) → ∃ j t, ev = EvPrompt j t ∧ (j ≤ k)%nat)
  ∧ (status (failure s e) = Cancelled ↔ instanceof_UserCancelledError e = true).
Proof.
  intros Hk Hbefore Hthrows.
  rewrite (run_prompt_throws this w k s e Hk Hbefore Hthrows). cbn [events].
  split; [done|]. split.
  - intros ev [Hin | ->%list_elem_of_singleton]%elem_of_app.
    + apply elem_of_prompts_ok in Hin as (j & Hj & ->). exists j, None. split; [done | lia].
    + exists k, (Some e). split; [done | lia].
  - unfold failure. cbn [status]. destruct (instanceof_UserCancelledError e); split; done.
Qed.


(** A prompt that awaits the input box is cancelled by an empty or
    withdrawn answer, whatever it would have done with the text. *)
Lemma awaitThen_showInputBox_cancelled (ui : Call (option string))
    (k : string → Action W) w :
  (ui w).2 = inr None ∨ (ui w).2 = inr (Some "") →
  (awaitThen (showInputBox ui) k w).2 = Some (UserCancelledError "").
Proof.
  unfold awaitThen, showInputBox.
  destruct (ui w) as [w1 [err | [result|]]]; simpl; intros [[=] | [=]]; subst; done.
Qed.

Lemma awaitThen_showQuickPick_cancelled {Item} (ui : list Item → Call (option Item))
    (items : list Item) (k : Item → Action W) w :
  (ui items w).2 = inr None →
  (awaitThen (showQuickPick ui items) k w).2 = Some (UserCancelledError "").
Proof.
  unfold awaitThen, showQuickPick.
  destruct (ui items w) as [w1 [err | [result|]]]; simpl; intros [=]; done.
Qed.

(** [X2] A step whose prompt awaits [showInputBox] cancels the wizard when
    the input box resolves to [undefined] or to the empty text: with the
    earlier prompts gone through, [run] returns [Cancelled] with that step
    and a [UserCancelledError], nothing is executed and the wizard keeps
    its [_result]. The same holds for [showQuickPick] resolving to
    [undefined]. *)
Theorem run_cancelled_by_empty_input this w k s :
  steps this !! k = Some s →
  (∀ j s', j < k → steps this !! j = Some s' →
     (prompt s' (replay (prompt <$> take j (steps this)) w)).2 = None) →
  let wk := replay (prompt <$> take k (steps this)) w in
  ((∃ ui cont, prompt s = awaitThen (showInputBox ui) cont
      ∧ ((ui wk).2 = inr None ∨ (ui wk).2 = inr (Some "")))
   ∨ (∃ Item (ui : list Item → Call (option Item)) items cont,
        prompt s = awaitThen (showQuickPick ui items) cont
        ∧ (ui items wk).2 = inr None)) →
  returned (run this w)
  = inr {| status := Cancelled; step := Some s; error := Some (UserCancelledError "") |}
  ∧ events (run this w) = prompts_ok 0 k ++ [EvPrompt k (Some (UserCancelledError ""))]
  ∧ final_wizard (run this w) = this.
Proof.
  intros Hk Hbefore wk Hprompt.
  assert (Hthrows : (prompt s wk).2 = Some (UserCancelledError "")).
  { destruct Hprompt as [(ui & cont & -> & Hui) | (Item & ui & items & cont & -> & Hui)].
    - by apply awaitThen_showInputBox_cancelled.
    - by apply awaitThen_showQuickPick_cancelled. }
  rewrite (run_prompt_throws this w k s _ Hk Hbefore Hthrows).
  done.
Qed.

(** *** Runs in which nothing throws *)

(** The run in which no call raises. *)
Lemma run_no_raise this w :
  firstRaise (runCalls this) w = None →
  run this w =
    {| final_world := replay ((prompt <$> steps this)
                              ++ executeActions this 0 (steps this)) w;
       final_wizard := set_result this (completed this);
       events := prompts_ok 0 (length (steps this)) ++ EvOutputShow
                 :: executes_ok 0 (length (steps this));
       returned := inr (completed this) |}.
Proof.
  unfold runCalls. rewrite firstRaise_app, promptCalls_actions.
  destruct (firstRaise (promptCalls (steps this)) w) as [[s e]|] eqn:Hprompts; [done|].
  intros Hexecutes. unfold run.
  pose proof (prompt_loop_firstRaise (steps this) 0 w) as Hr. rewrite Hprompts in Hr.
  destruct (prompt_loop_shape (steps this) 0 w) as (w1 & evs1 & r1 & Heq1 & Hc1).
  rewrite Heq1 in Hr |- *. simpl in Hr. subst r1.
  destruct Hc1 as [(_ & -> & ->) | (k & s & e & _ & _ & [=] & _)].
  pose proof (execute_loop_firstRaise this (steps this) 0
                (replay (prompt <$> steps this) w)) as Hx.
  rewrite Hexecutes in Hx.
  destruct (execute_loop_shape this (steps this) 0 (replay (prompt <$> steps this) w))
    as (w2 & evs2 & x & Heq2 & Hc2).
  rewrite Heq2 in Hx |- *. simpl in Hx. subst x.
  destruct Hc2 as [(_ & -> & ->) | (k & s & e & inHook & _ & Hrest)].
  - rewrite completed_step, replay_app. done.
  - simpl in Hrest. by destruct Hrest as (_ & [=] & _).
Qed.

(** [X3] When, in a run, no prompt, no [beforeExecute] hook and no
    [execute] raises an error in the world in which the run calls it,
    [run] goes through: every prompt is called in order, the output is
    shown, then for every step in order the hook and [execute];
    [onExecuteError] is not called; the result is [Completed] with the
    last step ([undefined] for a wizard without steps) and no error, and
    it is stored in [_result]. *)
Theorem run_completes this w :
  firstRaise (runCalls this) w = None →
  run this w =
    {| final_world := replay ((prompt <$> steps this)
                              ++ executeActions this 0 (steps this)) w;
       final_wizard := set_result this (completed this);
       events := prompts_ok 0 (length (steps this)) ++ EvOutputShow
                 :: executes_ok 0 (length (steps this));
       returned := inr (completed this) |}
  ∧ (∀ j e t, EvOnExecuteError j e t ∉ events (run this w))
  ∧ (steps this = [] → step (completed this) = None)
  ∧ (∀ s, last (steps this) = Some s →
       _result (final_wizard (run this w))
       = Some {| status := Completed; step := Some s; error := None |}).
Proof.
  intros Hnone. rewrite (run_no_raise this w Hnone).
  cbn [events final_wizard]. split; [done|]. split; [|split].
  - intros j e t [Hin | [Hin | Hin]%elem_of_cons]%elem_of_app.
    + apply elem_of_prompts_ok in Hin as (? & _ & [=]).
    + discriminate.
    + apply elem_of_executes_ok in Hin as (? & _ & [[=] | [=]]).
  - intros Hnil. unfold completed. by rewrite Hnil.
  - intros s Hlast. unfold set_result, completed. cbn [_result]. by rewrite Hlast.
Qed.

(** *** The hooks *)

(** [X4] A [beforeExecute] hook that throws for step [k] stops the run as
    a failing [execute] would: the [execute] of step [k] is not called,
    [onExecuteError] is called once, with that step and that error, and,
    unless it throws itself, [run] returns the result for step [k] and the
    error and stores it. *)
Theorem run_hook_throws this w k e :
  EvBeforeExecute k (Some e) ∈ events (run this w) →
  ∃ s t, steps this !! k = Some s
    ∧ events (run this w)
      = prompts_ok 0 (length (steps this)) ++ EvOutputShow :: executes_ok 0 k
        ++ [EvBeforeExecute k (Some e); EvOnExecuteError k e t]
    ∧ (∀ t', EvExecute k t' ∉ events (run this w))
    ∧ (t = None →
         returned (run this w) = inr (failure s e)
         ∧ _result (final_wizard (run this w)) = Some (failure s e)).
Proof.
  intros Hin.
  destruct (run_shape this w) as
    [(k' & s' & e' & Hk' & Hrun) | [(k' & s' & e' & inHook & Hk' & Hrun) | Hrun]].
  - exfalso. rewrite Hrun in Hin. cbn [events] in Hin.
    apply elem_of_app in Hin as [Hin | Hin].
    + apply elem_of_prompts_ok in Hin as (j & _ & [=]).
    + apply list_elem_of_singleton in Hin. discriminate.
  - cbn zeta in Hrun. rewrite Hrun in Hin |- *. cbn [events returned final_wizard] in *.
    assert (Hwhere : inHook = true ∧ k' = k ∧ e' = e).
    { apply elem_of_app in Hin as [Hin | Hin].
      { apply elem_of_prompts_ok in Hin as (j' & _ & [=]). }
      apply elem_of_cons in Hin as [[=] | Hin].
      apply elem_of_app in Hin as [Hin | Hin].
      { apply elem_of_executes_ok in Hin as (j' & _ & [[=] | [=]]). }
      apply elem_of_app in Hin as [Hin | Hin].
      - apply elem_of_raiseEvents in Hin as [[-> [= -> ->]] | [_ [[=] | [=]]]]. done.
      - apply list_elem_of_singleton in Hin. discriminate. }
    destruct Hwhere as (-> & -> & ->). exists s'. eexists. split; [done|].
    split; [reflexivity|]. split.
    + intros t' Hex.
      apply elem_of_app in Hex as [Hex | Hex].
      { apply elem_of_prompts_ok in Hex as (j' & _ & [=]). }
      apply elem_of_cons in Hex as [[=] | Hex].
      apply elem_of_app in Hex as [Hex | Hex].
      { apply elem_of_executes_ok in Hex as (j' & Hj' & [[=] | [= -> _]]). lia. }
      apply elem_of_cons in Hex as [[=] | Hex].
      apply list_elem_of_singleton in Hex. discriminate.
    + intros Hnone. rewrite Hnone. done.
  - exfalso. rewrite Hrun in Hin. cbn [events] in Hin.
    apply elem_of_app in Hin as [Hin | Hin].
    { apply elem_of_prompts_ok in Hin as (j' & _ & [=]). }
    apply elem_of_cons in Hin as [[=] | Hin].
    apply elem_of_executes_ok in Hin as (j' & _ & [[=] | [=]]).
Qed.

(** [X5] When the [onExecuteError] hook throws, [run] does not return a
    result: its promise is rejected with what the hook threw, the error of
    the step is lost to the caller, and [_result] is not assigned. *)
Theorem run_onExecuteError_throws this w k e e' :
  EvOnExecuteError k e (Some e') ∈ events (run this w) →
  returned (run this w) = inl e'
  ∧ final_wizard (run this w) = this
  ∧ (k, e) ∈ raisedIn (events (run this w)).
Proof.
  intros Hin.
  destruct (run_shape this w) as
    [(k' & s' & e1 & Hk' & Hrun) | [(k' & s' & e1 & inHook & Hk' & Hrun) | Hrun]].
  - exfalso. rewrite Hrun in Hin. cbn [events] in Hin.
    apply elem_of_app in Hin as [Hin | Hin].
    + apply elem_of_prompts_ok in Hin as (j & _ & [=]).
    + apply list_elem_of_singleton in Hin. discriminate.
  - cbn zeta in Hrun. rewrite Hrun in Hin |- *. cbn [events returned final_wizard] in *.
    rewrite raisedIn_execute_stop.
    apply elem_of_app in Hin as [Hin | Hin].
    { apply elem_of_prompts_ok in Hin as (j' & _ & [=]). }
    apply elem_of_cons in Hin as [[=] | Hin].
    apply elem_of_app in Hin as [Hin | Hin].
    { apply elem_of_executes_ok in Hin as (j' & _ & [[=] | [=]]). }
    apply elem_of_app in Hin as [Hin | Hin].
    { apply elem_of_raiseEvents in Hin as [[_ [=]] | [_ [[=] | [=]]]]. }
    apply list_elem_of_singleton in Hin. injection Hin as -> -> Ht.
    rewrite <- Ht. split_and!; try done. by apply list_elem_of_singleton.
  - exfalso. rewrite Hrun in Hin. cbn [events] in Hin.
    apply elem_of_app in Hin as [Hin | Hin].
    { apply elem_of_prompts_ok in Hin as (j' & _ & [=]). }
    apply elem_of_cons in Hin as [[=] | Hin].
    apply elem_of_executes_ok in Hin as (j' & _ & [[=] | [=]]).
Qed.



(** *** Looking a step up *)

(** [X7] [findStep] returns the first step, in the order of the list, that
    satisfies the predicate; it throws an [Error] with exactly the
    caller's message when, and only when, no step satisfies it. *)
Theorem findStep_first this (predicate : WizardStep W → bool) errorMessage :
  match findStep this predicate errorMessage with
  | inr s =>
      ∃ i, steps this !! i = Some s ∧ predicate s = true
        ∧ ∀ j s', j < i → steps this !! j = Some s' → predicate s' = false
  | inl err =>
      err = MkError errorMessage ∧ ∀ s, s ∈ steps this → predicate s = false
  end.
Proof.
  unfold findStep. generalize (steps this). intros l.
  induction l as [|s l IH]; simpl.
  - split; [done|]. intros s Hin. inversion Hin.
  - destruct (predicate s) eqn:Hp.
    + exists 0. split_and!; [done | done | intros; lia].
    + destruct (find predicate l) as [s1|].
      * destruct IH as (i & Hi & Hs1 & Hbefore). exists (S i).
        split_and!; [done | done |].
        intros [|j] s' Hj Hlook; simpl in Hlook; [by simplify_eq|].
        apply (Hbefore j s'); [lia | done].
      * destruct IH as [_ Hnone]. split; [done|].
        intros s' Hin. apply elem_of_cons in Hin as [-> | Hin]; auto.
Qed.

End WithWorld.

(** *** The properties at the wizards to run *)

Lemma run_stops_at_first_throwing_prompt_witness :
  run demoCancelled []
  = {| final_world := ["prompt 1"; "prompt 2"];
       final_wizard := demoCancelled;
       events := [EvPrompt 0 None; EvPrompt 1 (Some (UserCancelledError ""))];
       returned := inr {| status := Cancelled;
                          step := Some (demoStep "2" (Some (UserCancelledError "")) None);
                          error := Some (UserCancelledError "") |} |}.
Proof.
  refine (proj1 (run_stops_at_first_throwing_prompt demoCancelled [] 1
           (demoStep "2" (Some (UserCancelledError "")) None) (UserCancelledError "") _ _ _)).
  - reflexivity.
  - intros j s' Hj Hs'. destruct j as [|j]; [|lia]. injection Hs' as <-. reflexivity.
  - reflexivity.
Defined.

Lemma run_cancelled_by_empty_input_witness :
  returned (run demoInput [])
  = inr {| status := Cancelled; step := Some (inputStep (Some ""));
           error := Some (UserCancelledError "") |}
  ∧ events (run demoInput []) = [EvPrompt 0 None; EvPrompt 1 (Some (UserCancelledError ""))]
  ∧ final_wizard (run demoInput []) = demoInput.
Proof.
  apply (run_cancelled_by_empty_input demoInput [] 1 (inputStep (Some ""))).
  - reflexivity.
  - intros j s' Hj Hs'. destruct j as [|j]; [|lia]. injection Hs' as <-. reflexivity.
  - left. eexists _, _. split; [reflexivity|]. right. reflexivity.
Defined.

Lemma run_completes_witness :
  returned (run demoCompleted []) = inr (completed demoCompleted)
  ∧ final_world (run demoCompleted [])
    = ["prompt 1"; "prompt 2"; "prompt 3"; "execute 1"; "execute 2"; "execute 3"].
Proof.
  destruct (run_completes demoCompleted [] eq_refl) as [Hrun _].
  rewrite Hrun. split; reflexivity.
Defined.

Lemma run_hook_throws_witness :
  ∃ s t, steps demoHookThrows !! 1 = Some s
    ∧ events (run demoHookThrows [])
      = prompts_ok 0 2 ++ EvOutputShow :: executes_ok 0 1
        ++ [EvBeforeExecute 1 (Some (MkError "hook")); EvOnExecuteError 1 (MkError "hook") t]
    ∧ (∀ t', EvExecute 1 t' ∉ events (run demoHookThrows []))
    ∧ (t = None →
         returned (run demoHookThrows []) = inr (failure s (MkError "hook"))
         ∧ _result (final_wizard (run demoHookThrows []))
           = Some (failure s (MkError "hook"))).
Proof.
  apply (run_hook_throws demoHookThrows [] 1 (MkError "hook")).
  refine (bool_decide_unpack _ _). vm_compute. exact I.
Defined.

Lemma run_onExecuteError_throws_witness :
  returned (run demoHandlerThrows []) = inl (MkError "handler")
  ∧ final_wizard (run demoHandlerThrows []) = demoHandlerThrows
  ∧ (1, MkError "boom") ∈ raisedIn (events (run demoHandlerThrows [])).
Proof.
  apply (run_onExecuteError_throws demoHandlerThrows [] 1 (MkError "boom") (MkError "handler")).
  refine (bool_decide_unpack _ _). vm_compute. exact I.
Defined.

(** *** The position of a step *)

Section Position.
Context {Ref : Type} `{EqDecision Ref}.
Implicit Types (l : list Ref) (this : Ref).

Lemma findIndexFrom_absent {A} (p : A → bool) (l : list A) (i : Z) :
  (∀ x, x ∈ l → p x = false) → findIndexFrom p l i = (-1)%Z.
Proof.
  revert i. induction l as [|x l IH]; intros i Hl; [done|]. simpl.
  rewrite (Hl x (list_elem_of_here _ _)). apply IH.
  intros y Hy. apply Hl. by apply list_elem_of_further.
Qed.

Lemma findIndexFrom_first {A} (p : A → bool) (pre : list A) (x : A) (post : list A) (i : Z) :
  (∀ y, y ∈ pre → p y = false) → p x = true →
  findIndexFrom p (pre ++ x :: post) i = (i + Z.of_nat (length pre))%Z.
Proof.
  revert i. induction pre as [|y pre IH]; intros i Hpre Hx; simpl.
  - rewrite Hx. lia.
  - rewrite (Hpre y (list_elem_of_here _ _)).
    rewrite IH; [lia | | done]. intros z Hz. apply Hpre. by apply list_elem_of_further.
Qed.

Lemma stepIndex_absent l this : this ∉ l → stepIndex l this = (-1)%Z.
Proof.
  intros Hnot. apply findIndexFrom_absent. intros x Hx.
  apply bool_decide_eq_false. intros ->. done.
Qed.

Lemma stepIndex_at pre this post :
  this ∉ pre → stepIndex (pre ++ this :: post) this = Z.of_nat (length pre).
Proof.
  intros Hpre. unfold stepIndex, findIndex. rewrite findIndexFrom_first; [lia | | ].
  - intros y Hy. apply bool_decide_eq_false. intros ->. done.
  - by apply bool_decide_eq_true.
Qed.

(** The first occurrence of a member. *)
Lemma elem_of_first_split l this :
  this ∈ l → ∃ pre post, l = pre ++ this :: post ∧ this ∉ pre.
Proof.
  induction l as [|x l IH]; [inversion 1|]. intros Hin.
  destruct (decide (x = this)) as [-> | Hne].
  - exists [], l. split; [done|]. inversion 1.
  - apply elem_of_cons in Hin as [-> | Hin]; [done|].
    destruct (IH Hin) as (pre & post & -> & Hpre). exists (x :: pre), post.
    split; [done|]. intros [-> | ?]%elem_of_cons; done.
Qed.

(** [X8] [stepIndex] is [-1] exactly for a step that is not in the
    wizard's list; for a step of the list it is the position of its first
    occurrence, so it is at least 0, below the number of steps, and two
    steps of the list with the same index are the same step. The progress
    text of a step of the list is [Step i/N] with [i] between 1 and [N];
    for a step outside the list it is [Step 0/N]. *)
Theorem stepIndex_position l this :
  (stepIndex l this = (-1)%Z ↔ this ∉ l)
  ∧ (this ∈ l →
       ∃ i : nat, stepIndex l this = Z.of_nat i
         ∧ l !! i = Some this
         ∧ (∀ j : nat, j < i → l !! j ≠ Some this)
         ∧ stepProgressText l this
           = "Step " +:+ pretty (Z.of_nat (S i)) +:+ "/" +:+ pretty (Z.of_nat (length l))
         ∧ (1 ≤ S i ≤ length l)%nat)
  ∧ (this ∉ l →
       stepProgressText l this = "Step 0/" +:+ pretty (Z.of_nat (length l)))
  ∧ (∀ other, this ∈ l → stepIndex l other = stepIndex l this → other = this).
Proof.
  assert (Hmember : this ∈ l →
       ∃ i : nat, stepIndex l this = Z.of_nat i
         ∧ l !! i = Some this
         ∧ (∀ j : nat, j < i → l !! j ≠ Some this)).
  { intros Hin. destruct (elem_of_first_split l this Hin) as (pre & post & -> & Hpre).
    exists (length pre). split_and!.
    - by apply stepIndex_at.
    - by rewrite list_lookup_middle.
    - intros j Hj Hlook. rewrite lookup_app_l in Hlook by done.
      apply Hpre. by apply list_elem_of_lookup_2 in Hlook. }
  split_and!.
  - split.
    + intros Hidx Hin. destruct (Hmember Hin) as (i & Hi & _). lia.
    + apply stepIndex_absent.
  - intros Hin. destruct (Hmember Hin) as (i & Hi & Hlook & Hfirst).
    exists i. split_and!; try done.
    + unfold stepProgressText. rewrite Hi. do 3 f_equal. lia.
    + lia.
    + apply lookup_lt_Some in Hlook. lia.
  - intros Hnot. unfold stepProgressText. rewrite stepIndex_absent by done. done.
  - intros other Hin Heq. destruct (Hmember Hin) as (i & Hi & Hlook & _).
    destruct (decide (other ∈ l)) as [Hother | Hother].
    + destruct (elem_of_first_split l other Hother) as (pre & post & -> & Hpre).
      rewrite stepIndex_at in Heq by done. rewrite Hi in Heq.
      assert (i = length pre) as -> by lia.
      rewrite list_lookup_middle in Hlook by done. by simplify_eq.
    + rewrite stepIndex_absent in Heq by done. lia.
Qed.

(** [X9] The index follows the list as it is at the time of the call: a
    step put in anywhere before a step moves that step's index, and the
    number in its progress text, up by one; steps added after it leave
    its index as it was. *)
Theorem stepIndex_live pre x post more this :
  this ∈ post → this ∉ pre → x ≠ this →
  stepIndex (pre ++ x :: post) this = (stepIndex (pre ++ post) this + 1)%Z
  ∧ stepIndex ((pre ++ post) ++ more) this = stepIndex (pre ++ post) this.
Proof.
  intros Hin Hpre Hne.
  destruct (elem_of_first_split post this Hin) as (p1 & p2 & -> & Hp1).
  split.
  - replace (pre ++ x :: p1 ++ this :: p2) with ((pre ++ x :: p1) ++ this :: p2)
      by (by rewrite <- app_assoc).
    replace (pre ++ p1 ++ this :: p2) with ((pre ++ p1) ++ this :: p2)
      by (by rewrite <- app_assoc).
    rewrite !stepIndex_at.
    + rewrite !length_app. simpl. lia.
    + intros [? | ?]%elem_of_app; done.
    + intros [? | [-> | ?]%elem_of_cons]%elem_of_app; done.
  - replace ((pre ++ p1 ++ this :: p2) ++ more) with ((pre ++ p1) ++ this :: (p2 ++ more))
      by (by rewrite <- !app_assoc).
    replace (pre ++ p1 ++ this :: p2) with ((pre ++ p1) ++ this :: p2)
      by (by rewrite <- app_assoc).
    rewrite !stepIndex_at; [done | |]; intros [? | ?]%elem_of_app; done.
Qed.

End Position.

Lemma stepIndex_live_witness :
  stepIndex [1; 2; 3]%nat 3%nat = (stepIndex [1; 3]%nat 3%nat + 1)%Z
  ∧ stepIndex [1; 3; 4]%nat 3%nat = stepIndex [1; 3]%nat 3%nat.
Proof.
  apply (stepIndex_live [1]%nat 2%nat [3]%nat [4]%nat 3%nat).
  - refine (bool_decide_unpack _ _). vm_compute. exact I.
  - refine (bool_decide_unpack _ _). vm_compute. exact I.
  - lia.
Defined.

End StepsFacts.


(* ===================================================================== *)
(** ** Properties of the Web App creation wizard *)
(* ===================================================================== *)
Module WebAppCreatorFacts.
Import Wizard WizardFacts Steps StepsFacts WebAppCreator.

(** *** Patterns *)

Lemma forallb_Forall_true {A} (p : A → bool) (l : list A) :
  forallb p l = true ↔ Forall (fun x => p x = true) l.
Proof.
  induction l as [|x l IH]; simpl.
  - split; [constructor | done].
  - rewrite andb_true_iff, IH, Forall_cons. done.
Qed.

Lemma at_end_spec (s : list N) :
  match s with [] => true | _ :: _ => false end = true ↔ s = [].
Proof. destruct s; split; done. Qed.

(** A pattern of one piece matches the texts whose length is within its
    bounds and whose code units are all in its class. *)
Lemma matchPieces_single p (s : list N) :
  matchPieces [p] s = true ↔
  (rmin p ≤ length s ≤ rmax p)%nat ∧ Forall (fun c => cls p c = true) s.
Proof.
  simpl. rewrite existsb_exists. split.
  - intros (k & Hk & Hmatch). apply in_seq in Hk.
    apply andb_true_iff in Hmatch as [Hmatch Hend].
    apply andb_true_iff in Hmatch as [Hle Hall].
    apply Nat.leb_le in Hle. apply at_end_spec in Hend.
    assert (k = length s) as ->.
    { apply (f_equal length) in Hend. rewrite length_drop in Hend. simpl in Hend. lia. }
    rewrite firstn_all in Hall. apply forallb_Forall_true in Hall. split; [lia | done].
  - intros [Hlen Hall]. exists (length s). split.
    + apply in_seq. lia.
    + rewrite Nat.leb_refl, firstn_all, drop_all. simpl.
      rewrite andb_true_r. by apply forallb_Forall_true.
Qed.

(** A pattern of a bounded piece and one last code unit. *)
Lemma matchPieces_then_one p (last : N → bool) (s : list N) :
  matchPieces [p; {| cls := last; rmin := 1; rmax := 1 |}] s = true ↔
  ∃ body c, s = body ++ [c]
    ∧ (rmin p ≤ length body ≤ rmax p)%nat
    ∧ Forall (fun c' => cls p c' = true) body
    ∧ last c = true.
Proof.
  change (matchPieces [p; {| cls := last; rmin := 1; rmax := 1 |}] s)
    with (existsb (fun k => Nat.leb k (length s) && forallb (cls p) (take k s)
                            && matchPieces [{| cls := last; rmin := 1; rmax := 1 |}] (drop k s))
                  (seq (rmin p) (S (rmax p) - rmin p))).
  rewrite existsb_exists. split.
  - intros (k & Hk & Hmatch). apply in_seq in Hk.
    apply andb_true_iff in Hmatch as [Hmatch Hrest].
    apply andb_true_iff in Hmatch as [Hle Hall].
    apply Nat.leb_le in Hle. apply forallb_Forall_true in Hall.
    apply matchPieces_single in Hrest as [Hone Hlast]. cbn [rmin rmax cls] in Hone, Hlast.
    destruct (drop k s) as [|c [|? ?]] eqn:Hdrop; simpl in Hone; try lia.
    exists (take k s), c.
    split; [by rewrite <- Hdrop, take_drop|].
    split; [rewrite length_take; lia|].
    split; [done|]. by apply Forall_cons in Hlast as [? _].
  - intros (body & c & -> & Hlen & Hall & Hc). exists (length body). split.
    + apply in_seq. lia.
    + rewrite length_app, take_app_length, drop_app_length. simpl.
      rewrite Hc. simpl.
      replace (length body <=? length body + 1)%nat with true
        by (symmetry; apply Nat.leb_le; lia).
      simpl. rewrite andb_true_r. by apply forallb_Forall_true.
Qed.

Section Validation.
Variable isWhiteSpace : N → bool.
Variable toLowerCase : list N → list N.
Variable localeCompare : list N → list N → Z.

(** The duplicate test [findIndex(...) >= 0]. *)
Lemma findIndexFrom_bounds {A} (p : A → bool) (l : list A) (i : Z) :
  (0 ≤ i)%Z →
  (findIndexFrom p l i = (-1)%Z ∧ ∀ x, x ∈ l → p x = false)
  ∨ ((i ≤ findIndexFrom p l i)%Z ∧ ∃ x, x ∈ l ∧ p x = true).
Proof.
  revert i. induction l as [|x l IH]; intros i Hi; simpl.
  - left. split; [done|]. intros x Hx. inversion Hx.
  - destruct (p x) eqn:Hp.
    + right. split; [lia|]. exists x. split; [apply list_elem_of_here | done].
    + destruct (IH (i + 1)%Z ltac:(lia)) as [[-> Hnone] | [Hle (y & Hy & Hpy)]].
      * left. split; [done|]. intros y [-> | Hy]%elem_of_cons; auto.
      * right. split; [lia|]. exists y. split; [by apply list_elem_of_further | done].
Qed.

Lemma findIndex_found {A} (p : A → bool) (l : list A) :
  (0 <=? findIndex p l)%Z = true ↔ ∃ x, x ∈ l ∧ p x = true.
Proof.
  unfold findIndex.
  destruct (findIndexFrom_bounds p l 0 ltac:(lia)) as [[Heq Hnone] | [Hle Hsome]].
  - rewrite Heq. split; [done|]. intros (x & Hx & Hp). rewrite (Hnone x Hx) in Hp. done.
  - split; [done|]. intros _. apply Z.leb_le. lia.
Qed.

(** [X10] The validation of the Web App name accepts exactly the values
    whose text without the white space at its two ends has at most 59 code
    units, all of them ASCII letters, digits or hyphens. So it accepts the
    empty value and the value of white space only, and it rejects a name
    of 60 characters, where its message speaks of 1 to 60 characters. *)
Theorem validateSiteName_accepts (value : list N) :
  (validateSiteName isWhiteSpace value = None ↔
     (length (trim isWhiteSpace value) ≤ 59)%nat
     ∧ Forall (fun c => isNameChar c = true) (trim isWhiteSpace value))
  ∧ (trim isWhiteSpace value = [] → validateSiteName isWhiteSpace value = None)
  ∧ (length (trim isWhiteSpace value) = 60%nat →
       validateSiteName isWhiteSpace value ≠ None).
Proof.
  assert (Hiff : validateSiteName isWhiteSpace value = None ↔
     (length (trim isWhiteSpace value) ≤ 59)%nat
     ∧ Forall (fun c => isNameChar c = true) (trim isWhiteSpace value)).
  { unfold validateSiteName, siteNamePattern.
    destruct (matchPieces _ _) eqn:Hm; simpl.
    - apply matchPieces_single in Hm as [Hlen Hall]. cbn [rmin rmax cls] in *.
      split; [intros _; split; [lia | done] | done].
    - split; [done|]. intros [Hlen Hall].
      assert (matchPieces [{| cls := isNameChar; rmin := 0; rmax := 59 |}]
                (trim isWhiteSpace value) = true) as Hyes.
      { apply matchPieces_single. cbn [rmin rmax cls]. split; [lia | done]. }
      congruence. }
  split_and!; [exact Hiff | |].
  - intros Hnil. apply Hiff. rewrite Hnil. split; [simpl; lia | constructor].
  - intros Hlen Hnone. apply Hiff in Hnone as [Hle _]. lia.
Qed.

(** [X11] The validation of the plan name. It reports a duplicate exactly
    when some plan whose lower-cased resource group is [rgName] has a name
    that [localeCompare] finds equal to the trimmed value; otherwise it
    accepts exactly the trimmed values of at most 39 letters, digits and
    hyphens (the empty one too; its message speaks of 1 to 40). The
    resource group side is compared with [rgName] as it is: a [rgName]
    that is not the lower-casing of any text never gives a duplicate. *)
Theorem validatePlanName_accepts (plans : list AppServicePlan) (rgName value : list N) :
  let v := trim isWhiteSpace value in
  let duplicate :=
    ∃ plan, plan ∈ plans ∧ toLowerCase (plan_resourceGroup plan) = rgName
            ∧ localeCompare v (plan_name plan) = 0%Z in
  (validatePlanName isWhiteSpace toLowerCase localeCompare plans rgName value = None ↔
     ¬ duplicate ∧ (length v ≤ 39)%nat ∧ Forall (fun c => isNameChar c = true) v)
  ∧ (duplicate →
       validatePlanName isWhiteSpace toLowerCase localeCompare plans rgName value
       = Some (units "App Service Plan name " ++ quoteUnit ++ v ++ quoteUnit
               ++ units " already exists in resource group " ++ quoteUnit ++ rgName
               ++ quoteUnit ++ units "."))
  ∧ ((∀ text, toLowerCase text ≠ rgName) → ¬ duplicate).
Proof.
  intros v duplicate.
  assert (Hdup : (0 <=? findIndex
              (fun plan => bool_decide (toLowerCase (plan_resourceGroup plan) = rgName)
                           && (localeCompare v (plan_name plan) =? 0)%Z)
              plans)%Z = true ↔ duplicate).
  { rewrite findIndex_found. unfold duplicate. split.
    - intros (plan & Hin & Hp). apply andb_true_iff in Hp as [Hrg Hname].
      apply bool_decide_eq_true in Hrg. apply Z.eqb_eq in Hname. eauto.
    - intros (plan & Hin & Hrg & Hname). exists plan. split; [done|].
      apply andb_true_iff. split; [by apply bool_decide_eq_true | by apply Z.eqb_eq]. }
  unfold validatePlanName. fold v.
  destruct (0 <=? findIndex _ plans)%Z eqn:Hfound.
  - assert (duplicate) as Hyes by (by apply Hdup).
    split_and!.
    + split; [done | intros [Hno _]; done].
    + done.
    + intros Hnever (plan & _ & Hrg & _). by apply (Hnever (plan_resourceGroup plan)).
  - assert (¬ duplicate) as Hno.
    { intros Hd. apply Hdup in Hd. congruence. }
    split_and!.
    + unfold planNamePattern. destruct (matchPieces _ v) eqn:Hm; simpl.
      * apply matchPieces_single in Hm as [Hlen Hall]. cbn [rmin rmax cls] in *.
        split; [intros _; split; [done|]; split; [lia | done] | done].
      * split; [done|]. intros (_ & Hlen & Hall).
        assert (matchPieces [{| cls := isNameChar; rmin := 0; rmax := 39 |}] v = true)
          as Hyes.
        { apply matchPieces_single. cbn [rmin rmax cls]. split; [lia | done]. }
        congruence.
    + done.
    + done.
Qed.

(** [X12] The validation of the resource group name. It reports a
    duplicate exactly when [localeCompare] finds the name of some resource
    group equal to the trimmed value; otherwise it accepts exactly the
    trimmed values of 1 to 90 code units, all ASCII letters, digits,
    periods, hyphens, underscores or parentheses, the last of which is not
    a period. *)
Theorem validateGroupName_accepts (resourceGroups : list ResourceGroup) (value : list N) :
  let v := trim isWhiteSpace value in
  let duplicate :=
    ∃ rg, rg ∈ resourceGroups ∧ localeCompare (rg_name rg) v = 0%Z in
  (validateGroupName isWhiteSpace localeCompare resourceGroups value = None ↔
     ¬ duplicate
     ∧ (1 ≤ length v ≤ 90)%nat
     ∧ Forall (fun c => isGroupChar c = true) v
     ∧ last v ≠ Some 46%N)
  ∧ (duplicate →
       validateGroupName isWhiteSpace localeCompare resourceGroups value
       = Some (units "Resource group name " ++ quoteUnit ++ v ++ quoteUnit
               ++ units " already exists.")).
Proof.
  intros v duplicate.
  assert (Hdup : (0 <=? findIndex
              (fun rg => (localeCompare (rg_name rg) v =? 0)%Z) resourceGroups)%Z = true
              ↔ duplicate).
  { rewrite findIndex_found. unfold duplicate. split.
    - intros (rg & Hin & Hp). apply Z.eqb_eq in Hp. eauto.
    - intros (rg & Hin & Hname). exists rg. split; [done | by apply Z.eqb_eq]. }
  assert (Hend : ∀ c, isGroupEndChar c = true ↔ isGroupChar c = true ∧ c ≠ 46%N).
  { intros c. unfold isGroupEndChar, isGroupChar, isLetter, isDigit.
    destruct (N.eqb_spec c 46) as [-> | Hne]; [by vm_compute; split; [|intros [_ ?]]|].
    rewrite orb_false_r. split; [intros ->; done | intros [-> _]; done]. }
  assert (Hpattern : matchPieces groupNamePattern v = true ↔
     (1 ≤ length v ≤ 90)%nat ∧ Forall (fun c => isGroupChar c = true) v
     ∧ last v ≠ Some 46%N).
  { unfold groupNamePattern. rewrite matchPieces_then_one. cbn [rmin rmax cls]. split.
    - intros (body & c & Hv & Hlen & Hall & Hc). apply Hend in Hc as [Hc Hne].
      rewrite Hv.
      split; [rewrite length_app; simpl; lia|].
      split; [apply Forall_app; split; [done|]; by constructor|].
      rewrite last_snoc. congruence.
    - intros (Hlen & Hall & Hlast).
      destruct (decide (v = [])) as [Hnil | Hne]; [rewrite Hnil in Hlen; simpl in Hlen; lia|].
      destruct (exists_last Hne) as (body & c & Hv).
      exists body, c. rewrite Hv in *. rewrite length_app in Hlen. simpl in Hlen.
      apply Forall_app in Hall as [Hbody Hc]. apply Forall_cons in Hc as [Hc _].
      rewrite last_snoc in Hlast.
      split; [done|]. split; [lia|]. split; [done|].
      apply Hend. split; [done | congruence]. }
  unfold validateGroupName. fold v.
  destruct (0 <=? findIndex _ resourceGroups)%Z eqn:Hfound.
  - assert (duplicate) as Hyes by (by apply Hdup).
    split; [split; [done | intros [Hno _]; done] | done].
  - assert (¬ duplicate) as Hno.
    { intros Hd. apply Hdup in Hd. congruence. }
    split; [|done].
    destruct (matchPieces groupNamePattern v) eqn:Hm; simpl.
    + destruct Hpattern as [Hfw _]. split; [intros _; split; [done | by apply Hfw] | done].
    + split; [done|]. intros (_ & Hrest). apply Hpattern in Hrest. discriminate.
Qed.

End Validation.

(** *** The hooks *)

Section Hooks.
Context {X : Type}.
Implicit Types (l : list (WizardStep (World X))) (w : World X).

Lemma replay_step (a : Action (World X)) (acts : list (Action (World X))) w :
  replay (a :: acts) w = replay acts (a w).1.
Proof. reflexivity. Qed.

(** After the first step the hook does nothing. *)
Lemma replay_creator_later_gen l (rest : list (WizardStep (World X))) (i : nat) w :
  replay (executeActions (webAppCreator l) (S i) rest) w = replay (execute <$> rest) w.
Proof.
  revert i w. induction rest as [|s rest IH]; intros i w; [done|].
  cbn [executeActions]. rewrite fmap_cons, !replay_step.
  cbn [beforeExecute webAppCreator]. unfold creator_beforeExecute at 1.
  cbn [Nat.eqb noop fst]. apply IH.
Qed.

(** [X13] A run of the Web App wizard in which no prompt and no
    [execute] raises an error in the world in which the run calls it goes
    through and leaves the world that these calls leave, in this order:
    every prompt; the line [Start creating new Web App...], once, when
    there is a step; every [execute]. Nothing else is written by the
    wizard itself: [onComplete], which would write [Done!], is not
    called. *)
Theorem creator_run_completes l w :
  firstRaise (runCalls (webAppCreator l)) w = None →
  returned (run (webAppCreator l) w) = inr (completed (webAppCreator l))
  ∧ final_world (run (webAppCreator l) w)
    = replay ((prompt <$> l)
              ++ match l with
                 | [] => []
                 | first :: rest =>
                     writeline "Start creating new Web App..."
                     :: execute first :: (execute <$> rest)
                 end) w.
Proof.
  intros Hnone.
  rewrite (run_no_raise (webAppCreator l) w Hnone).
  cbn [returned final_world]. split; [done|].
  rewrite !replay_app. cbn [steps _steps webAppCreator].
  destruct l as [|first rest]; [done|].
  cbn [executeActions beforeExecute webAppCreator].
  change (creator_beforeExecute first 0)
    with (writeline (X:=X) "Start creating new Web App...").
  rewrite !replay_step. apply replay_creator_later_gen.
Qed.

(** [X14] When the [execute] of step [k] throws [e] in a run of the Web
    App wizard, the last thing written to the output is the line
    [Failed to create new Web App - ] followed by the message of [e], and
    [run] returns the result for step [k] and [e], which it stores: the
    [onExecuteError] of this wizard never throws. *)
Theorem creator_run_fails l w k e :
  EvExecute k (Some e) ∈ events (run (webAppCreator l) w) →
  ∃ s, l !! k = Some s
    ∧ returned (run (webAppCreator l) w) = inr (failure s e)
    ∧ _result (final_wizard (run (webAppCreator l) w)) = Some (failure s e)
    ∧ let wb := replay ((prompt <$> l)
                        ++ executeActions (webAppCreator l) 0 (take (S k) l)) w in
      final_world (run (webAppCreator l) w)
      = {| output := output wb +:+ ("Failed to create new Web App - " +:+ message e)
                     +:+ newline;
           others := others wb |}.
Proof.
  intros Hin.
  destruct (run_shape (webAppCreator l) w) as
    [(k' & s & e1 & Hk & Hrun) | [(k' & s & e1 & inHook & Hk & Hrun) | Hrun]].
  - exfalso. rewrite Hrun in Hin. cbn [events] in Hin.
    apply elem_of_app in Hin as [Hin | Hin].
    + apply elem_of_prompts_ok in Hin as (j & _ & [=]).
    + apply list_elem_of_singleton in Hin. discriminate.
  - cbn zeta in Hrun. rewrite Hrun in Hin |- *.
    cbn [events returned final_world final_wizard] in Hin |- *.
    apply execute_thrown_inv in Hin as (-> & -> & ->).
    exists s. cbn [steps _steps webAppCreator] in Hk |- *. split; [done|].
    cbn [onExecuteError webAppCreator]. unfold creator_onExecuteError, writeline.
    cbn [fst snd set_result _result]. split; [done|]. split; [done|].
    rewrite (executeActions_take_S (webAppCreator l) 0 k' l s Hk).
    unfold raiseActions. rewrite !(assoc_L (++)). done.
  - exfalso. rewrite Hrun in Hin. cbn [events] in Hin.
    apply elem_of_app in Hin as [Hin | Hin].
    { apply elem_of_prompts_ok in Hin as (j' & _ & [=]). }
    apply elem_of_cons in Hin as [[=] | Hin].
    apply elem_of_executes_ok in Hin as (j' & _ & [[=] | [=]]).
Qed.

End Hooks.

Lemma creator_run_completes_witness :
  returned (run demoCreator emptyOutput) = inr (completed demoCreator)
  ∧ output (final_world (run demoCreator emptyOutput))
    = "prompt 1; prompt 2; Start creating new Web App..." +:+ newline
      +:+ "execute 1; execute 2; ".
Proof.
  destruct (creator_run_completes [writingStep "1" None; writingStep "2" None] emptyOutput
              eq_refl) as [Hret Hworld].
  split; [exact Hret|]. unfold demoCreator. rewrite Hworld. reflexivity.
Defined.

Lemma creator_run_fails_witness :
  ∃ s, steps demoCreatorFails !! 1 = Some s
    ∧ returned (run demoCreatorFails emptyOutput) = inr (failure s (MkError "quota"))
    ∧ output (final_world (run demoCreatorFails emptyOutput))
      = "prompt 1; prompt 2; Start creating new Web App..." +:+ newline
        +:+ "execute 1; execute 2; Failed to create new Web App - quota" +:+ newline.
Proof.
  destruct (creator_run_fails [writingStep "1" None; writingStep "2" (Some (MkError "quota"))]
              emptyOutput 1 (MkError "quota")) as (s & Hs & Hret & _ & Hworld).
  - refine (bool_decide_unpack _ _). vm_compute. exact I.
  - exists s. split; [exact Hs|]. split; [exact Hret|].
    unfold demoCreatorFails. cbv zeta in Hworld. rewrite Hworld. reflexivity.
Defined.

(** *** The tables *)

(** [X15] Every pricing tier item offered resolves, by its label, to the
    SKU it was made from, and every runtime item to its runtime stack: the
    names in the two tables are pairwise different, so the lookups after
    the quick picks find what was picked. A label that is in neither table
    finds nothing. *)
Theorem picked_items_resolve :
  (∀ (i : nat) sku, getPlanSkus !! i = Some sku →
     ∃ item, pricingTiers !! i = Some item ∧ pickedSku item = Some sku)
  ∧ (∀ (i : nat) rt, getLinuxRuntimeStack !! i = Some rt →
     ∃ item, runtimeItems !! i = Some item ∧ pickedRuntime item = Some rt)
  ∧ (∀ item, (∀ sku, sku ∈ getPlanSkus → sku_name sku ≠ label item) →
       pickedSku item = None)
  ∧ (∀ item, (∀ rt, rt ∈ getLinuxRuntimeStack → rt_displayName rt ≠ label item) →
       pickedRuntime item = None).
Proof.
  split_and!.
  - intros i sku Hi.
    do 6 (destruct i as [|i]; [injection Hi as <-; eexists; split; reflexivity|]).
    discriminate.
  - intros i rt Hi.
    do 9 (destruct i as [|i]; [injection Hi as <-; eexists; split; reflexivity|]).
    discriminate.
  - intros item Hnone. unfold pickedSku.
    destruct (find _ getPlanSkus) as [sku|] eqn:Hfind; [|done].
    apply find_some in Hfind as [Hin Heq]. apply String.eqb_eq in Heq.
    apply list_elem_of_In in Hin. by destruct (Hnone sku Hin).
  - intros item Hnone. unfold pickedRuntime.
    destruct (find _ getLinuxRuntimeStack) as [rt|] eqn:Hfind; [|done].
    apply find_some in Hfind as [Hin Heq]. apply String.eqb_eq in Heq.
    apply list_elem_of_In in Hin. by destruct (Hnone rt Hin).
Qed.

End WebAppCreatorFacts.


(* ===================================================================== *)
(** ** Properties of the slot selection *)
(* ===================================================================== *)
Module PromptSlotSelectionFacts.
Import PromptSlotSelection.

Section Slots.
Context {SiteTreeItem : Type}.
Implicit Types (result : list (AzureTreeItem SiteTreeItem)) (uiTreeItem : SiteTreeItem)
  (node : AzureTreeItem SiteTreeItem).

Lemma categoryNode_acc result (acc : option (AzureTreeItem SiteTreeItem)) :
  (∀ node, node ∈ result → isCategory node = false) →
  foldl (fun deploymentSlotsCategoryNode treeNode =>
           match treeNode with
           | DeploymentSlotsTreeItem _ => Some treeNode
           | OtherTreeItem _ => deploymentSlotsCategoryNode
           end) acc result = acc.
Proof.
  revert acc. induction result as [|node result IH]; intros acc Hnone; [done|].
  cbn [foldl]. pose proof (Hnone node (list_elem_of_here _ _)) as Hnode.
  destruct node; [discriminate|]. apply IH.
  intros n Hn. apply Hnone. by apply list_elem_of_further.
Qed.

(** The node kept is the last [DeploymentSlotsTreeItem] of the list. *)
Lemma categoryNode_last pre children post :
  (∀ node, node ∈ post → isCategory node = false) →
  categoryNode (pre ++ DeploymentSlotsTreeItem children :: post)
  = Some (DeploymentSlotsTreeItem children).
Proof.
  intros Hpost. unfold categoryNode. rewrite foldl_app. cbn [foldl].
  by apply categoryNode_acc.
Qed.

Lemma categoryNode_none result :
  (∀ node, node ∈ result → isCategory node = false) → categoryNode result = None.
Proof. apply categoryNode_acc. Qed.

(** A list either has no [DeploymentSlotsTreeItem] or has a last one. *)
Lemma last_category result :
  (∀ node, node ∈ result → isCategory node = false)
  ∨ ∃ pre children post,
      result = pre ++ DeploymentSlotsTreeItem children :: post
      ∧ ∀ node, node ∈ post → isCategory node = false.
Proof.
  induction result as [|node result IH].
  - left. intros node Hin. inversion Hin.
  - destruct IH as [Hnone | (pre & children & post & -> & Hpost)].
    + destruct node as [children | label].
      * right. exists [], children, result. done.
      * left. intros n [-> | Hn]%elem_of_cons; [done | by apply Hnone].
    + right. exists (node :: pre), children, post. done.
Qed.

(** [X16] [getDeploymentSlotsTreeItems] resolves to the App Service node
    itself followed by the children of the last [DeploymentSlotsTreeItem]
    among the node's children, so its result is never empty and has one
    element exactly when there is no deployment slot. It throws "Cannot
    find any tree node under the App Service node." when the children are
    missing or empty, and "Cannot find the Deployment Slots tree node"
    when there are children but no [DeploymentSlotsTreeItem] among them. *)
Theorem getDeploymentSlotsTreeItems_cases uiTreeItem
    (cached : option (list (AzureTreeItem SiteTreeItem))) :
  (cached = None ∨ cached = Some [] →
     getDeploymentSlotsTreeItems uiTreeItem (inr cached)
     = inl (MkError "Cannot find any tree node under the App Service node."))
  ∧ (∀ result, cached = Some result → result ≠ [] →
       (∀ node, node ∈ result → isCategory node = false) →
       getDeploymentSlotsTreeItems uiTreeItem (inr cached)
       = inl (MkError "Cannot find the Deployment Slots tree node"))
  ∧ (∀ pre children post,
       cached = Some (pre ++ DeploymentSlotsTreeItem children :: post) →
       (∀ node, node ∈ post → isCategory node = false) →
       getDeploymentSlotsTreeItems uiTreeItem (inr cached)
       = match children with
         | inl err => inl err
         | inr slots => inr (uiTreeItem :: slots)
         end)
  ∧ (∀ items, getDeploymentSlotsTreeItems uiTreeItem (inr cached) = inr items →
       ∃ slots, items = uiTreeItem :: slots
         ∧ (selectsAutomatically items = true ↔ slots = [])).
Proof.
  split_and!.
  - intros [-> | ->]; done.
  - intros result -> Hne Hnone. unfold getDeploymentSlotsTreeItems.
    destruct result as [|node result]; [done|]. cbn [length Nat.leb].
    by rewrite categoryNode_none.
  - intros pre children post -> Hpost. unfold getDeploymentSlotsTreeItems.
    rewrite length_app. cbn [length].
    replace (length pre + S (length post) <=? 0)%nat with false
      by (symmetry; apply Nat.leb_gt; lia).
    rewrite categoryNode_last by done. by destruct children.
  - intros items Hok. unfold getDeploymentSlotsTreeItems in Hok.
    destruct cached as [result|]; [|discriminate].
    destruct (length result <=? 0)%nat; [discriminate|].
    destruct (categoryNode result) as [[[err | slots] | label]|]; try discriminate.
    injection Hok as <-. exists slots. split; [done|].
    unfold selectsAutomatically. cbn [app length]. destruct slots; split; done.
Qed.

End Slots.
End PromptSlotSelectionFacts.


(* ===================================================================== *)
(** ** Properties of the session manager over several sessions *)
(* ===================================================================== *)
Module SessionsFacts.
Import RemoteSsh RemoteSshFacts.

Implicit Types (env : Env) (st : State) (node : SiteTreeItem).

(** *** What the operations leave alone *)

(** The bring-up writes the site configuration of its own site only, and
    only to disable remote debugging. *)
Lemma startRemoteSshInternal_siteConfigs env node st :
  let k := fullName (client node) in
  let st' := (startRemoteSshInternal env node st).1 in
  siteConfigs st' = siteConfigs st ∨ siteConfigs st' = <[k := false]> (siteConfigs st).
Proof.
  intros k. unfold_ops. simpl.
  case_call CallGetSiteConfig; [by left|].
  case_call CallGetPort; [by left|].
  destruct (isLinux (client node)); simpl; [|by left].
  fold k. destruct (bool_decide _); simpl.
  - case_call CallGetWebAppPublishCredential; [by left|].
    case_call CallStartProxy; by left.
  - case_call CallUpdateConfiguration; [by left|].
    case_call CallGetWebAppPublishCredential; [by right|].
    case_call CallStartProxy; by right.
Qed.

Lemma startRemoteSsh_siteConfigs env o st :
  let k := fullName (client (targetOf env o)) in
  let st' := (startRemoteSsh env o st).1 in
  siteConfigs st' = siteConfigs st ∨ siteConfigs st' = <[k := false]> (siteConfigs st).
Proof.
  assert (Hgiven : ∀ node st0,
    siteConfigs (startRemoteSsh env (Some node) st0).1 = siteConfigs st0
    ∨ siteConfigs (startRemoteSsh env (Some node) st0).1
      = <[fullName (client node) := false]> (siteConfigs st0)).
  { intros node st0. rewrite startRemoteSsh_unfold.
    destruct (isActive _ st0); [by left|].
    pose proof (startRemoteSshInternal_siteConfigs env node
                  (registered (fullName (client node)) st0)) as Hc.
    destruct (startRemoteSshInternal env node _) as [st2 [e|[]]]; exact Hc. }
  intros k st'. subst k st'. destruct o as [node|]; cbn [targetOf]; [apply Hgiven|].
  rewrite startRemoteSsh_picked.
  destruct (throws env CallShowTreeItemPicker); [by left|].
  apply (Hgiven (pickedNode env) (picked st)).
Qed.

Lemma stopRemoteSsh_frame env o st :
  let st' := (stopRemoteSsh env o st).1 in
  siteConfigs st' = siteConfigs st
  ∧ tunnels st' = tunnels st
  ∧ closeListeners st' = closeListeners st
  ∧ nextProcessId st' = nextProcessId st
  ∧ (∀ t, t ∈ terminals st' → t ∈ terminals st).
Proof.
  assert (Hgiven : ∀ node st0,
    let st' := (stopRemoteSsh env (Some node) st0).1 in
    siteConfigs st' = siteConfigs st0 ∧ tunnels st' = tunnels st0
    ∧ closeListeners st' = closeListeners st0 ∧ nextProcessId st' = nextProcessId st0
    ∧ (∀ t, t ∈ terminals st' → t ∈ terminals st0)).
  { intros node st0.
    unfold stopRemoteSsh, resolveNode, terminal_dispose, emit, modify, bind, ret, gets, throw.
    destruct (negb _); [done|]. cbn.
    destruct (find _ _); cbn; split_and!; try done.
    intros t' Ht'. by apply list_elem_of_filter in Ht' as [_ ?]. }
  intros st'. subst st'. destruct o as [node|]; [apply Hgiven|].
  rewrite stopRemoteSsh_picked.
  destruct (throws env CallShowTreeItemPicker); [done|].
  apply (Hgiven (pickedNode env) (picked st)).
Qed.

Lemma closeListener_run_siteConfigs env l e st :
  let k := fullName (client (l_node l)) in
  let st' := (closeListener_run env l e st).1 in
  siteConfigs st' = siteConfigs st
  ∨ siteConfigs st' = <[k := l_oldSetting l]> (siteConfigs st).
Proof.
  intros k st'. subst st'. unfold closeListener_run.
  destruct (bool_decide (processId e = processId (l_terminal l))); [|by left].
  unfold_ops. fold k. simpl.
  destruct (l_tunnelProxy l) as [tp|]; simpl.
  - destruct (throws env CallTunnelDispose); simpl; [by left|].
    destruct (bool_decide _); simpl; [by left|].
    destruct (throws env CallUpdateConfiguration); simpl; [by left | by right].
  - destruct (bool_decide _); simpl; [by left|].
    destruct (throws env CallUpdateConfiguration); simpl; [by left | by right].
Qed.

(** A listener leaves the terminals, the listeners and the next process
    identifier as they are. *)
Lemma closeListener_run_frame env l e st :
  let st' := (closeListener_run env l e st).1 in
  terminals st' = terminals st
  ∧ closeListeners st' = closeListeners st
  ∧ nextProcessId st' = nextProcessId st.
Proof.
  intros st'. subst st'. unfold closeListener_run.
  destruct (bool_decide (processId e = processId (l_terminal l))); [|done].
  unfold_ops. simpl.
  destruct (l_tunnelProxy l) as [tp|]; simpl.
  - destruct (throws env CallTunnelDispose); simpl; [done|].
    destruct (bool_decide (default false _ = l_oldSetting l)); simpl; [done|].
    destruct (throws env CallUpdateConfiguration); simpl; done.
  - destruct (bool_decide (default false _ = l_oldSetting l)); simpl; [done|].
    destruct (throws env CallUpdateConfiguration); simpl; done.
Qed.

(** [X17] The sessions of different targets do not touch each other:
    whatever [startRemoteSsh], [stopRemoteSsh] or a closure listener does
    for one target, and however it ends, the registry entry of every other
    target, whether that target counts as active, and the remote debugging
    flag of every other site are as before. *)
Theorem other_targets_untouched env o l e st key :
  (key ≠ fullName (client (targetOf env o)) →
     activeSshSessions (startRemoteSsh env o st).1 !! key = activeSshSessions st !! key
     ∧ isActive key (startRemoteSsh env o st).1 = isActive key st
     ∧ remoteDebugOf key (startRemoteSsh env o st).1 = remoteDebugOf key st)
  ∧ (activeSshSessions (stopRemoteSsh env o st).1 = activeSshSessions st
     ∧ siteConfigs (stopRemoteSsh env o st).1 = siteConfigs st)
  ∧ (key ≠ fullName (client (l_node l)) →
     activeSshSessions (closeListener_run env l e st).1 !! key
     = activeSshSessions st !! key
     ∧ isActive key (closeListener_run env l e st).1 = isActive key st
     ∧ remoteDebugOf key (closeListener_run env l e st).1 = remoteDebugOf key st).
Proof.
  split; [|split].
  - intros Hne.
    assert (Hs : activeSshSessions (startRemoteSsh env o st).1 !! key
                 = activeSshSessions st !! key).
    { destruct (startRemoteSsh_sessions env o st) as [-> | [-> | ->]];
        [done | by apply lookup_insert_ne | by apply lookup_insert_ne]. }
    split_and!; [done | unfold isActive; by rewrite Hs |].
    unfold remoteDebugOf.
    destruct (startRemoteSsh_siteConfigs env o st) as [-> | ->]; [done|].
    by rewrite lookup_insert_ne.
  - split; [apply stopRemoteSsh_sessions | apply stopRemoteSsh_frame].
  - intros Hne.
    assert (Hs : activeSshSessions (closeListener_run env l e st).1 !! key
                 = activeSshSessions st !! key).
    { destruct (closeListener_run_sessions env l e st) as [-> | ->];
        [done | by apply lookup_insert_ne]. }
    split_and!; [done | unfold isActive; by rewrite Hs |].
    unfold remoteDebugOf.
    destruct (closeListener_run_siteConfigs env l e st) as [-> | ->]; [done|].
    by rewrite lookup_insert_ne.
Qed.

(** *** What a call of [startRemoteSsh] leaves *)

(** [X18] [startRemoteSsh] never returns normally, and no call of it
    creates a terminal or registers a closure listener. For a Linux site
    that passes the duplicate check, when no collaborator throws, it
    throws the [TypeError] of the call of [connectToTunnelProxy] on the
    action context: by then the tunnel is started, and it is left open;
    remote debugging is left disabled; the registration is released. The
    method [connectToTunnelProxy], whoever calls it, throws at the
    evaluation of [node] and does nothing. So when no listener was
    registered before the call, the closure of a terminal after it makes
    no call at all. *)
Theorem startRemoteSsh_always_throws env o st :
  let st' := (startRemoteSsh env o st).1 in
  (∃ e, (startRemoteSsh env o st).2 = inl e)
  ∧ terminals st' = terminals st
  ∧ closeListeners st' = closeListeners st
  ∧ nextProcessId st' = nextProcessId st
  ∧ (∀ node, o = Some node →
       let k := fullName (client node) in
       isActive k st = false → isLinux (client node) = true →
       (∀ c, throws env c = None) →
       (startRemoteSsh env o st).2 = inl (TypeError notAFunctionMessage)
       ∧ eventsSince st st'
         = EvSessionsSet k true :: bringUpEvents k (freePort env) (remoteDebugOf k st)
           ++ [EvSessionsSet k false]
       ∧ isActive k st' = false
       ∧ remoteDebugOf k st' = false
       ∧ tunnels st' = tunnels st ++ [boundTunnel env node])
  ∧ (∀ tunnelProxy st0,
       connectToTunnelProxy tunnelProxy st0
       = (st0, inl (ReferenceError "node is not defined")))
  ∧ (closeListeners st = [] →
     ∀ env' e, eventsSince st' (fireDidCloseTerminal env' e st') = []
               ∧ tunnels (fireDidCloseTerminal env' e st') = tunnels st'
               ∧ siteConfigs (fireDidCloseTerminal env' e st') = siteConfigs st'
               ∧ activeSshSessions (fireDidCloseTerminal env' e st')
                 = activeSshSessions st').
Proof.
  intros st'.
  assert (Hgiven : ∀ node st0,
    (∃ e, (startRemoteSsh env (Some node) st0).2 = inl e)
    ∧ terminals (startRemoteSsh env (Some node) st0).1 = terminals st0
    ∧ closeListeners (startRemoteSsh env (Some node) st0).1 = closeListeners st0
    ∧ nextProcessId (startRemoteSsh env (Some node) st0).1 = nextProcessId st0).
  { intros node st0. destruct (isActive (fullName (client node)) st0) eqn:Hactive.
    - rewrite startRemoteSsh_unfold, Hactive. cbn. eauto.
    - destruct (startRemoteSsh_cases env node st0 Hactive)
        as (evs & e & Hr & _ & _ & _ & _ & Ht & Hl & Hp & _). eauto. }
  assert (Hany : (∃ e, (startRemoteSsh env o st).2 = inl e)
    ∧ terminals st' = terminals st
    ∧ closeListeners st' = closeListeners st
    ∧ nextProcessId st' = nextProcessId st).
  { subst st'. destruct o as [node|]; [apply Hgiven|].
    rewrite startRemoteSsh_picked.
    destruct (throws env CallShowTreeItemPicker) as [e|]; [cbn; eauto|].
    apply (Hgiven (pickedNode env) (picked st)). }
  destruct Hany as (Hthrows & Hterms & Hlisteners & Hpid).
  split_and!; try done.
  - intros node -> k Hidle HL Hok. subst st'.
    destruct (startRemoteSsh_reaches_tunnel env node st Hidle HL Hok)
      as (Hr & Htrace & Hs & Hcfg & Htu).
    fold k in Htrace, Hs, Hcfg.
    split_and!; try done.
    + by apply trace_eventsSince.
    + unfold isActive. rewrite Hs, lookup_insert_eq. done.
    + unfold remoteDebugOf in *. rewrite Hcfg.
      destruct (default false (siteConfigs st !! k)) eqn:Hwas; [done | exact Hwas].
  - intros Hnone env' e. unfold fireDidCloseTerminal.
    rewrite Hlisteners, Hnone. cbn [foldl]. split_and!; try done.
    apply trace_eventsSince. cbn. by rewrite app_nil_r.
Qed.

(** [X20] After a call of [startRemoteSsh] that passed the duplicate
    check, however its bring-up ended, the target does not count as
    active: [stopRemoteSsh] for it throws the "not currently running"
    error and does nothing, and another [startRemoteSsh] passes the
    duplicate check and registers the target again. On a Linux site with
    collaborators that do not throw, each of the two calls starts a tunnel
    and neither disposes one: both tunnels are left open. *)
Theorem start_then_stop env env1 env2 node st :
  let k := fullName (client node) in
  let st1 := (startRemoteSsh env (Some node) st).1 in
  let st2 := (startRemoteSsh env2 (Some node) st1).1 in
  isActive k st = false →
  isActive k st1 = false
  ∧ stopRemoteSsh env1 (Some node) st1 = (st1, inl (MkError (notRunningMessage k)))
  ∧ (∃ rest, eventsSince st1 st2 = EvSessionsSet k true :: rest)
  ∧ isActive k st2 = false
  ∧ (isLinux (client node) = true →
     (∀ c, throws env c = None) → (∀ c, throws env2 c = None) →
     tunnels st2 = tunnels st ++ [boundTunnel env node; boundTunnel env2 node]
     ∧ (∀ port, EvTunnelDispose port ∉ eventsSince st st2)).
Proof.
  intros k st1 st2 Hidle. subst st1 st2.
  destruct (startRemoteSsh_cases env node st Hidle)
    as (evs & e & _ & Htrace & Hall & _ & Hs & _).
  fold k in Htrace, Hs.
  assert (Hidle1 : isActive k (startRemoteSsh env (Some node) st).1 = false).
  { unfold isActive. rewrite Hs, lookup_insert_eq. done. }
  destruct (startRemoteSsh_cases env2 node _ Hidle1)
    as (evs2 & e2 & _ & Htrace2 & Hall2 & _ & Hs2 & _).
  fold k in Htrace2, Hs2.
  split; [done|]. split.
  { unfold stopRemoteSsh, resolveNode, bind, ret, gets, throw.
    fold k. unfold isActive in Hidle1. by rewrite Hidle1. }
  split. { apply trace_eventsSince in Htrace2. rewrite Htrace2. eauto. }
  split. { unfold isActive. rewrite Hs2, lookup_insert_eq. done. }
  intros HL Hok Hok2.
  destruct (startRemoteSsh_reaches_tunnel env node st Hidle HL Hok)
    as (_ & _ & _ & _ & Htu).
  destruct (startRemoteSsh_reaches_tunnel env2 node _ Hidle1 HL Hok2)
    as (_ & _ & _ & _ & Htu2).
  split. { rewrite Htu2, Htu, <- app_assoc. done. }
  intros port Hin.
  rewrite (trace_eventsSince st _
             ((EvSessionsSet k true :: evs ++ [EvSessionsSet k false])
              ++ EvSessionsSet k true :: evs2 ++ [EvSessionsSet k false])) in Hin.
  2:{ rewrite Htrace2, Htrace, <- app_assoc. done. }
  assert (Hno : ∀ l : list Event, Forall (fun ev => isBringUpEvent ev = true) l →
            EvTunnelDispose port ∉ EvSessionsSet k true :: l ++ [EvSessionsSet k false]).
  { intros l Hl [[=] | [Hin' | [[=] | []%elem_of_nil]%elem_of_cons]%elem_of_app]%elem_of_cons.
    rewrite Forall_forall in Hl. by apply Hl in Hin'. }
  apply elem_of_app in Hin as [Hin | Hin]; [by apply (Hno evs) | by apply (Hno evs2)].
Qed.

(** *** Stopping by name *)







(** *** The properties at the scenario *)

Lemma startRemoteSsh_always_throws_witness :
  (startRemoteSsh envOk (Some app1) st0).2 = inl (TypeError notAFunctionMessage)
  ∧ terminals st1 = []
  ∧ closeListeners st1 = []
  ∧ isActive "app1" st1 = false
  ∧ remoteDebugOf "app1" st1 = false
  ∧ tunnels st1 = [tunnel1].
Proof.
  destruct (startRemoteSsh_always_throws envOk (Some app1) st0)
    as (_ & Hterms & Hlisteners & _ & Hlinux & _).
  destruct (Hlinux app1 eq_refl eq_refl eq_refl (fun c => eq_refl))
    as (Hr & _ & Hidle & Hdebug & Htunnels).
  split_and!; [exact Hr | exact Hterms | exact Hlisteners | exact Hidle | exact Hdebug
               | exact Htunnels].
Defined.

Lemma start_then_stop_witness :
  isActive "app1" st1 = false
  ∧ stopRemoteSsh envOk (Some app1) st1 = (st1, inl (MkError (notRunningMessage "app1")))
  ∧ tunnels (startRemoteSsh envOk (Some app1) st1).1 = [tunnel1; tunnel1].
Proof.
  destruct (start_then_stop envOk envOk envOk app1 st0 eq_refl)
    as (Hidle & Hstop & _ & _ & Hlinux).
  destruct (Hlinux eq_refl (fun c => eq_refl) (fun c => eq_refl)) as [Htunnels _].
  split_and!; [exact Hidle | exact Hstop | exact Htunnels].
Defined.


End SessionsFacts.
